(** * Maestro agent service: echo agent, Chroma-backed memory, HTTP handlers

    A shallow embedding of
      - [maestro/memory/chroma_memory_service.py]  (embedding, commit, search),
      - [maestro/agent.py]                         (the echo agent),
      - [main.py]                                  (the HTTP handlers),
    and the properties the specification states about them.

    Python values are modelled as the code has them: a [str] is a sequence of
    code points, a float is an IEEE binary64 value, an attribute that may be
    [None] is an [option], a [dict] is an association list in insertion order.
    The vector collection, the session registry, the runner and the clock are
    collaborators from outside the repository: the code is written against
    their interface, and so is the model. *)

From Stdlib Require Import String Ascii DecimalString DecimalNat.
From Stdlib Require Import Floats Uint63.
From Stdlib Require Import ZArith List Bool Lia.
Import ListNotations.

(* ===================================================================== *)
(** ** Python strings and the few built-ins the code uses *)
(* ===================================================================== *)

Module Py.

(** A code point, as [ord] returns it. *)
Definition codepoint := Z.

(** A Python [str]: its code points in order. *)
Definition str := list codepoint.

(** A string literal of the source. *)
Definition lit (s : string) : str :=
  map (fun a => Z.of_N (N_of_ascii a)) (list_ascii_of_string s).

Definition str_eq_dec : forall a b : str, {a = b} + {a <> b} :=
  list_eq_dec Z.eq_dec.

Definition str_eqb (a b : str) : bool :=
  if str_eq_dec a b then true else false.

(** [sep.join(items)]. *)
Fixpoint join (sep : str) (items : list str) : str :=
  match items with
  | [] => []
  | [x] => x
  | x :: rest => x ++ sep ++ join sep rest
  end.

(** [str(n)] and [f'{n}'] for a non-negative [int]: decimal digits. *)
Definition str_of_nat (n : nat) : str :=
  lit (NilEmpty.string_of_uint (Nat.to_uint n)).

(** Truthiness of a list ([if xs:]). *)
Definition nonempty {A : Type} (l : list A) : bool :=
  match l with [] => false | _ :: _ => true end.

(** [enumerate(xs)], counting from [start]. *)
Fixpoint enumerate_from {A : Type} (start : nat) (l : list A) : list (nat * A) :=
  match l with
  | [] => []
  | x :: rest => (start, x) :: enumerate_from (S start) rest
  end.

Definition enumerate {A : Type} (l : list A) : list (nat * A) :=
  enumerate_from 0 l.

(** [xs[-1]] on a list, [None] standing for the [IndexError]. *)
Definition last_item {A : Type} (l : list A) : option A :=
  match rev l with [] => None | x :: _ => Some x end.

(** A [dict] with string keys, in insertion order. *)
Definition dict (V : Type) := list (string * V).

(** [d.get(key)]. *)
Fixpoint dict_get {V : Type} (key : string) (d : dict V) : option V :=
  match d with
  | [] => None
  | (k, v) :: rest => if String.eqb k key then Some v else dict_get key rest
  end.

Definition dict_keys {V : Type} (d : dict V) : list string := map fst d.

End Py.

Import Py.

(* ===================================================================== *)
(** ** [chroma_memory_service.py]: the embedding *)
(* ===================================================================== *)

Definition _EMBED_DIM : nat := 32.

(** An embedding, as the collection takes it: a list of floats. *)
Definition Embedding := list float.

(** One component: [float(ord(c) % 256) / 255]. *)
Definition embed_char (c : codepoint) : float :=
  (PrimFloat.of_uint63 (Uint63.of_Z (c mod 256)) / 255)%float.

(** [_embed_text]. *)
Definition _embed_text (text : str) : Embedding :=
  let vec := map embed_char (firstn _EMBED_DIM text) in
  if length vec <? _EMBED_DIM
  then vec ++ repeat 0%float (_EMBED_DIM - length vec)
  else vec.

(** A float lies in the closed interval [0, 1]. *)
Definition in_unit_interval (x : float) : bool :=
  (PrimFloat.leb 0 x && PrimFloat.leb x 1)%bool.

(* ===================================================================== *)
(** ** Data model: contents, events, sessions ([google.genai], ADK) *)
(* ===================================================================== *)

(** [types.Part]: only its [text] attribute is read. *)
Record Part := { text : option str }.

(** [types.Part.from_text(text=t)]. *)
Definition Part_from_text (t : str) : Part := {| text := Some t |}.

(** [types.Content]. *)
Record Content := { role : option str; parts : option (list Part) }.

(** [Event]: the attributes the code reads or sets. *)
Record Event := { author : str; content : option Content; timestamp : float }.

(** [Session]. *)
Record Session := {
  id : str;
  app_name : str;
  user_id : str;
  events : list Event
}.

(** [InvocationContext]: the attributes [_run_async_impl] reads. *)
Record InvocationContext := {
  session : Session;
  user_content : option Content
}.

(** [MemoryEntry]. *)
Record MemoryEntry := {
  entry_content : Content;
  entry_author : option str;
  entry_timestamp : option str
}.

(** [SearchMemoryResponse]. *)
Record SearchMemoryResponse := { memories : list MemoryEntry }.

(** The comprehension [p.text for p in parts if p.text], which the source
    writes at each of its three uses. *)
Fixpoint truthy_texts (ps : list Part) : list str :=
  match ps with
  | [] => []
  | p :: rest =>
      match text p with
      | Some (c :: t) => (c :: t) :: truthy_texts rest
      | _ => truthy_texts rest
      end
  end.

(** Exceptions the modelled code can raise. *)
Inductive exn :=
| TypeError
| IndexError
| HTTPException (status_code : nat) (detail : str).

Inductive result (A : Type) :=
| Ok (a : A)
| Raise (e : exn).
Arguments Ok {A} a.
Arguments Raise {A} e.

(* ===================================================================== *)
(** ** The vector collection, as the code talks to it *)
(* ===================================================================== *)

Module Chroma.

Definition Metadata := dict str.

(** The keyword arguments of [collection.add]. *)
Record Batch := {
  ids : list str;
  documents : list str;
  metadatas : list Metadata;
  embeddings : list Embedding
}.

(** What [collection.query] answers: one inner list per query embedding,
    under keys that are always present and may hold [None]. *)
Record QueryResult := {
  result_documents : option (list (list str));
  result_metadatas : option (list (list Metadata))
}.

(** A computation that may call the collection and may raise. *)
Inductive prog (A : Type) : Type :=
| Return (a : A)
| Throw (e : exn)
| collection_add (b : Batch) (k : prog A)
| collection_query (query_embeddings : list Embedding) (n_results : nat)
                   (k : QueryResult -> prog A).
Arguments Return {A} a.
Arguments Throw {A} e.
Arguments collection_add {A} b k.
Arguments collection_query {A} query_embeddings n_results k.

Fixpoint bind {A B : Type} (p : prog A) (f : A -> prog B) : prog B :=
  match p with
  | Return a => f a
  | Throw e => Throw e
  | collection_add b k => collection_add b (bind k f)
  | collection_query q n k => collection_query q n (fun r => bind (k r) f)
  end.

(** One stored record. *)
Record Row := {
  row_id : str;
  row_document : str;
  row_metadata : Metadata;
  row_embedding : Embedding
}.

(** The records a batch carries, position by position. *)
Fixpoint rows_of (i d : list str) (m : list Metadata) (e : list Embedding)
  : list Row :=
  match i, d, m, e with
  | i0 :: i', d0 :: d', m0 :: m', e0 :: e' =>
      {| row_id := i0; row_document := d0;
         row_metadata := m0; row_embedding := e0 |} :: rows_of i' d' m' e'
  | _, _, _, _ => []
  end.

Definition rows (b : Batch) : list Row :=
  rows_of (ids b) (documents b) (metadatas b) (embeddings b).

(** The interface of a collection: a state, its records, and the two
    methods the service calls. *)
Record Collection := {
  state : Type;
  records : state -> list Row;
  add : Batch -> state -> state;
  query : list Embedding -> nat -> state -> QueryResult
}.

(** The calls a computation issued, oldest first. *)
Inductive Call :=
| CallAdd (b : Batch)
| CallQuery (query_embeddings : list Embedding) (n_results : nat).

(** Running a computation against a collection: its outcome, the state of
    the collection afterwards, and the calls it issued. *)
Fixpoint run (K : Collection) {A : Type} (p : prog A) (c : state K)
  : result A * state K * list Call :=
  match p with
  | Return a => (Ok a, c, [])
  | Throw e => (Raise e, c, [])
  | collection_add b k =>
      let '(r, c', log) := run K k (add K b c) in
      (r, c', CallAdd b :: log)
  | collection_query q n k =>
      let '(r, c', log) := run K (k (query K q n c)) c in
      (r, c', CallQuery q n :: log)
  end.

Definition outcome (K : Collection) {A : Type} (p : prog A) (c : state K)
  : result A := fst (fst (run K p c)).

Definition final (K : Collection) {A : Type} (p : prog A) (c : state K)
  : state K := snd (fst (run K p c)).

Definition calls (K : Collection) {A : Type} (p : prog A) (c : state K)
  : list Call := snd (run K p c).

End Chroma.

Import Chroma.

Declare Scope prog_scope.
Delimit Scope prog_scope with prog.
Notation "x <- p ;; q" := (bind p (fun x => q))
  (at level 100, p at next level, right associativity) : prog_scope.

(* ===================================================================== *)
(** ** [chroma_memory_service.py]: [ChromaMemoryService] *)
(* ===================================================================== *)

Section MemoryService.

(** [_utils.format_timestamp], from the ADK: a float instant to its text. *)
Variable format_timestamp : float -> str.

Definition empty_batch : Batch :=
  {| ids := []; documents := []; metadatas := []; embeddings := [] |}.

(** The body of the loop of [add_session_to_memory], for one
    [(idx, event)] of [enumerate(session.events)]: the four lists grow
    together, or the event is skipped. *)
Definition add_event (s : Session) (acc : Batch) (ie : nat * Event) : Batch :=
  let '(idx, event) := ie in
  match content event with
  | None => acc
  | Some c =>
      match parts c with
      | None | Some [] => acc
      | Some ps =>
          let text_parts := truthy_texts ps in
          if nonempty text_parts then
            let text := join (lit " ") text_parts in
            {| documents := documents acc ++ [text];
               metadatas := metadatas acc ++
                 [[ ("app_name"%string, app_name s);
                    ("user_id"%string, user_id s);
                    ("session_id"%string, id s);
                    ("author"%string, author event);
                    ("timestamp"%string, format_timestamp (timestamp event)) ]];
               ids := ids acc ++ [id s ++ lit "-" ++ str_of_nat idx];
               embeddings := embeddings acc ++ [_embed_text text] |}
          else acc
      end
  end.

(** [ChromaMemoryService.add_session_to_memory]. *)
Definition add_session_to_memory (s : Session) : prog unit :=
  let b := fold_left (add_event s) (enumerate (events s)) empty_batch in
  if nonempty (documents b)
  then collection_add b (Return tt)
  else Return tt.

End MemoryService.

(** The entry built for one [(doc, metadata)] pair of the answer. *)
Definition memory_entry (dm : str * Metadata) : MemoryEntry :=
  let '(doc, metadata) := dm in
  {| entry_content :=
       {| role := Some (lit "user"); parts := Some [Part_from_text doc] |};
     entry_author := dict_get "author" metadata;
     entry_timestamp := dict_get "timestamp" metadata |}.

(** What [search_memory] does with the answer of the collection. *)
Definition search_response (r : QueryResult) : prog SearchMemoryResponse :=
  match result_documents r with
  | Some (documents0 :: _) =>
      match result_metadatas r with
      | None => Throw TypeError
      | Some [] => Throw IndexError
      | Some (metadatas0 :: _) =>
          Return {| memories := map memory_entry (combine documents0 metadatas0) |}
      end
  | _ => Return {| memories := [] |}
  end.

(** [ChromaMemoryService.search_memory]. *)
Definition search_memory (app_name user_id query : str)
  : prog SearchMemoryResponse :=
  collection_query [_embed_text query] 5 search_response.

(* ===================================================================== *)
(** ** [agent.py]: [MaestroAgent._run_async_impl] *)
(* ===================================================================== *)

(** An element of [messages]: [{"role": ..., "content": ...}]. *)
Record Message := { msg_role : str; msg_content : str }.

(** The body of the loop over [ctx.session.events]. *)
Definition add_message (messages : list Message) (event : Event) : list Message :=
  match content event with
  | None => messages
  | Some c =>
      match parts c with
      | None | Some [] => messages
      | Some ps =>
          let text := join (lit " ") (truthy_texts ps) in
          if nonempty text
          then messages ++ [{| msg_role := author event; msg_content := text |}]
          else messages
      end
  end.

(** The [if ctx.user_content and ctx.user_content.parts:] block. *)
Definition add_user_content (messages : list Message) (uc : option Content)
  : list Message :=
  match uc with
  | None => messages
  | Some c =>
      match parts c with
      | None | Some [] => messages
      | Some ps =>
          let user_text := join (lit " ") (truthy_texts ps) in
          if nonempty user_text
          then messages ++ [{| msg_role := lit "user"; msg_content := user_text |}]
          else messages
      end
  end.

(** [_run_async_impl]: the events the agent yields. [name] is [self.name];
    [now] is the instant the new event is stamped with. *)
Definition _run_async_impl (name : str) (now : float) (ctx : InvocationContext)
  : list Event :=
  let messages := fold_left add_message (events (session ctx)) [] in
  let messages := add_user_content messages (user_content ctx) in
  let content_text :=
    if nonempty messages then
      match last_item messages with
      | Some m => lit "Echo: " ++ msg_content m
      | None => []
      end
    else [] in
  [ {| author := name;
       content := Some {| role := None;
                          parts := Some [Part_from_text content_text] |};
       timestamp := now |} ].

(* ===================================================================== *)
(** ** [main.py]: the HTTP handlers *)
(* ===================================================================== *)

Definition APP_NAME : str := lit "maestro".
Definition USER_ID : str := lit "user".

(** The body of the loop over the events of the runner. *)
Definition add_response (responses : list str) (event : Event) : list str :=
  match content event with
  | None => responses
  | Some c =>
      match parts c with
      | Some (p :: _) =>
          match text p with
          | Some (ch :: t) => responses ++ [ch :: t]
          | _ => responses
          end
      | _ => responses
      end
  end.

(** [send_message]. [run_async] is [runner.run_async], called with
    [user_id], [session_id] and [new_message]; the body of the reply is
    [{"response": ...}]. *)
Definition send_message
    (run_async : str -> str -> Content -> list Event)
    (session_id : str) (message : str) : result str :=
  let new_message :=
    {| role := Some (lit "user"); parts := Some [Part_from_text message] |} in
  let responses :=
    fold_left add_response (run_async USER_ID session_id new_message) [] in
  if nonempty responses then
    match last_item responses with
    | Some r => Ok r
    | None => Raise IndexError
    end
  else Raise (HTTPException 500 (lit "No response from agent")).

(** One element of the [memories] list of the reply. *)
Record MemoryItem := {
  item_author : option str;
  item_text : str;
  item_timestamp : option str
}.

(** The body of the loop over [result.memories]. *)
Definition memory_item (memory : MemoryEntry) : MemoryItem :=
  let text0 :=
    match parts (entry_content memory) with
    | Some (p :: _) =>
        match text p with
        | Some (c :: t) => c :: t
        | _ => []
        end
    | _ => []
    end in
  {| item_author := entry_author memory;
     item_text := text0;
     item_timestamp := entry_timestamp memory |}.

(** [get_memory]. [get_session] is [session_service.get_session], called
    with [app_name], [user_id] and [session_id]; the body of the reply is
    [{"memories": [...]}]. *)
Definition get_memory
    (get_session : str -> str -> str -> option Session)
    (session_id query : str) : prog (list MemoryItem) :=
  match get_session APP_NAME USER_ID session_id with
  | None => Throw (HTTPException 404 (lit "Session not found"))
  | Some s =>
      (r <- search_memory (app_name s) (user_id s) query ;;
       Return (map memory_item (memories r)))%prog
  end.

(* ===================================================================== *)
(** ** What the service expects of a collection, and a collection in memory *)
(* ===================================================================== *)

Module Store.

(** Is a record with this id stored? *)
Definition stored (i : str) (rs : list Row) : bool :=
  existsb (fun r => str_eqb (row_id r) i) rs.

(** [add], as a Chroma collection does it: rows are taken in order, and a
    row whose id is already stored is skipped, never overwritten. *)
Fixpoint insert_rows (new : list Row) (rs : list Row) : list Row :=
  match new with
  | [] => rs
  | r :: new' =>
      insert_rows new' (if stored (row_id r) rs then rs else rs ++ [r])
  end.

(** Follows the specification's words ("upsert the record"): a row whose
    id is already stored replaces the stored one, any other is appended. *)
Fixpoint upsert_rows_spec (new : list Row) (rs : list Row) : list Row :=
  match new with
  | [] => rs
  | r :: new' =>
      upsert_rows_spec new'
        (if stored (row_id r) rs
         then map (fun old => if str_eqb (row_id old) (row_id r) then r else old) rs
         else rs ++ [r])
  end.

(** The collection's [add] keeps the first record stored under an id. *)
Definition add_keeps_first (K : Collection) : Prop :=
  forall b c, records K (add K b c) = insert_rows (rows b) (records K c).

(** The collection answers every query embedding with one list of
    documents and one of metadatas, of at most [n_results] entries and no
    more than it holds. *)
Definition bounded (K : Collection) {X : Type}
    (field : QueryResult -> option (list (list X))) : Prop :=
  forall q n c, exists xs,
    field (query K q n c) = Some xs
    /\ length xs = length q
    /\ Forall (fun x => length x <= Nat.min n (length (records K c))) xs.

Definition answers_in_bounds (K : Collection) : Prop :=
  bounded K result_documents /\ bounded K result_metadatas.

(** Squared Euclidean distance. *)
Definition distance (a b : Embedding) : float :=
  fold_left (fun acc xy => (acc + (fst xy - snd xy) * (fst xy - snd xy))%float)
            (combine a b) 0%float.

Fixpoint insert_by (key : Row -> float) (r : Row) (sorted : list Row) : list Row :=
  match sorted with
  | [] => [r]
  | r' :: rest =>
      if PrimFloat.ltb (key r) (key r')
      then r :: r' :: rest
      else r' :: insert_by key r rest
  end.

Definition sort_by (key : Row -> float) (rs : list Row) : list Row :=
  fold_left (fun sorted r => insert_by key r sorted) rs [].

Definition nearest (rs : list Row) (n : nat) (q : Embedding) : list Row :=
  firstn n (sort_by (fun r => distance q (row_embedding r)) rs).

Definition InMemory : Collection :=
  {| state := list Row;
     records := fun c => c;
     add := fun b c => insert_rows (rows b) c;
     query := fun q n c =>
       {| result_documents :=
            Some (map (fun e => map row_document (nearest c n e)) q);
          result_metadatas :=
            Some (map (fun e => map row_metadata (nearest c n e)) q) |} |}.

End Store.

Import Store.

(* ===================================================================== *)
(** ** The specification's reading of a turn, of a commit and of a response *)
(* ===================================================================== *)

(** The text fragments of optional content, in order ([None] texts carry none). *)
Definition content_fragments (oc : option Content) : list str :=
  match oc with
  | Some c =>
      match parts c with
      | Some ps =>
          flat_map (fun p => match text p with Some t => [t] | None => [] end) ps
      | None => []
      end
  | None => []
  end.

(** The text fragments of a turn. *)
Definition fragments (e : Event) : list str := content_fragments (content e).

(** "Concatenated text content". *)
Definition concatenated_text (frs : list str) : str := concat frs.

(** "The space-joined non-empty text fragments". *)
Definition joined_text (frs : list str) : str :=
  join (lit " ") (filter nonempty frs).

Section CommitSpec.

Variable format_timestamp : float -> str.

(** The record the specification describes for turn [idx] of a session. *)
Definition record_spec (s : Session) (idx : nat) (e : Event) : Row :=
  {| row_id := id s ++ lit "-" ++ str_of_nat idx;
     row_document := joined_text (fragments e);
     row_metadata :=
       [ ("app_name"%string, app_name s);
         ("user_id"%string, user_id s);
         ("session_id"%string, id s);
         ("author"%string, author e);
         ("timestamp"%string, format_timestamp (timestamp e)) ];
     row_embedding := _embed_text (joined_text (fragments e)) |}.

(** "Each turn with non-empty concatenated text content", with its index. *)
Definition qualifying (s : Session) : list (nat * Event) :=
  filter (fun ie => nonempty (concatenated_text (fragments (snd ie))))
         (enumerate (events s)).

(** The records a commit of the session is specified to write. *)
Definition persisted_spec (s : Session) : list Row :=
  map (fun ie => record_spec s (fst ie) (snd ie)) (qualifying s).

(** The one batch that carries given records. *)
Definition batch_of (rs : list Row) : Batch :=
  {| ids := map row_id rs;
     documents := map row_document rs;
     metadatas := map row_metadata rs;
     embeddings := map row_embedding rs |}.

End CommitSpec.

(** A batch with one more record at its end. *)
Definition snoc_row (b : Batch) (r : Row) : Batch :=
  {| ids := ids b ++ [row_id r];
     documents := documents b ++ [row_document r];
     metadatas := metadatas b ++ [row_metadata r];
     embeddings := embeddings b ++ [row_embedding r] |}.

(** The history the agent answers: the fragments of each event of the
    session in order, then those of the newest user input. *)
Definition combined_history (ctx : InvocationContext) : list (list str) :=
  map fragments (events (session ctx)) ++ [content_fragments (user_content ctx)].

(** "The text of the most recent entry that had non-empty text". *)
Fixpoint most_recent_text (history : list (list str)) : option str :=
  match history with
  | [] => None
  | frs :: later =>
      match most_recent_text later with
      | Some t => Some t
      | None =>
          if nonempty (concatenated_text frs)
          then Some (joined_text frs)
          else None
      end
  end.

(** The response the specification describes. *)
Definition respond_spec (history : list (list str)) : str :=
  match most_recent_text history with
  | Some t => lit "Echo: " ++ t
  | None => []
  end.

(** The message an entry contributes, if any. *)
Definition entry_messages (r : str) (frs : list str) : list Message :=
  if nonempty (concatenated_text frs)
  then [ {| msg_role := r; msg_content := joined_text frs |} ]
  else [].

(* ===================================================================== *)
(** ** Sessions, stores and collaborators at concrete values *)
(* ===================================================================== *)

(** A stand-in for [format_timestamp] at concrete inputs. *)
Definition stamp (t : float) : str :=
  if PrimFloat.ltb t 2 then lit "t1" else lit "t2".

(** A session of three turns, none of which carries text. *)
Definition silent_session : Session :=
  {| id := lit "s1"; app_name := lit "maestro"; user_id := lit "user";
     events :=
       [ {| author := lit "user"; content := None; timestamp := 1%float |};
         {| author := lit "user";
            content := Some {| role := Some (lit "user"); parts := Some [] |};
            timestamp := 2%float |};
         {| author := lit "maestro";
            content := Some {| role := None;
                               parts := Some [ {| text := None |};
                                               Part_from_text [] ] |};
            timestamp := 3%float |} ] |}.

(** A session with a user turn and the agent's answer. *)
Definition hello_session : Session :=
  {| id := lit "s1"; app_name := lit "maestro"; user_id := lit "user";
     events :=
       [ {| author := lit "user";
            content := Some {| role := Some (lit "user");
                               parts := Some [Part_from_text (lit "hello")] |};
            timestamp := 1%float |};
         {| author := lit "maestro";
            content := Some {| role := None;
                               parts := Some [Part_from_text (lit "Echo: hello")] |};
            timestamp := 2%float |} ] |}.

(** A session of another application and another user. *)
Definition alice_session : Session :=
  {| id := lit "s9"; app_name := lit "other"; user_id := lit "alice";
     events :=
       [ {| author := lit "alice";
            content := Some {| role := Some (lit "user");
                               parts := Some [Part_from_text (lit "alice's note")] |};
            timestamp := 1%float |} ] |}.

(** A collection that already holds a record under the id ["s1-0"]. *)
Definition stale_store : state InMemory :=
  [ {| row_id := lit "s1-0";
       row_document := lit "old";
       row_metadata := [ ("author"%string, lit "someone") ];
       row_embedding := _embed_text (lit "old") |} ].

(** Three records, the second the closest to the query ["hello"]. *)
Definition three_rows : state InMemory :=
  [ {| row_id := lit "s0-0"; row_document := lit "zzz";
       row_metadata := [ ("author"%string, lit "user");
                         ("timestamp"%string, lit "t0") ];
       row_embedding := _embed_text (lit "zzz") |};
    {| row_id := lit "s1-0"; row_document := lit "hello";
       row_metadata := [ ("author"%string, lit "user");
                         ("timestamp"%string, lit "t1") ];
       row_embedding := _embed_text (lit "hello") |};
    {| row_id := lit "s1-1"; row_document := lit "hellp";
       row_metadata := [ ("author"%string, lit "maestro") ];
       row_embedding := _embed_text (lit "hellp") |} ].

(** A registry that knows the session [s1] only. *)
Definition one_session (app user sid : str) : option Session :=
  if (str_eqb app APP_NAME && str_eqb user USER_ID && str_eqb sid (lit "s1"))%bool
  then Some {| id := lit "s1"; app_name := APP_NAME; user_id := USER_ID;
               events := [] |}
  else None.

(** A context whose only turn is the user saying ["hi"]. *)
Definition hi_context : InvocationContext :=
  {| session :=
       {| id := lit "s1"; app_name := APP_NAME; user_id := USER_ID;
          events :=
            [ {| author := lit "user";
                 content := Some {| role := Some (lit "user");
                                    parts := Some [Part_from_text (lit "hi")] |};
                 timestamp := 1%float |} ] |};
     user_content := None |}.

(** A runner that records the new message as the next event of an empty
    session and relays what the agent yields. *)
Definition relay (user sid : str) (new_message : Content) : list Event :=
  _run_async_impl APP_NAME 0%float
    {| session :=
         {| id := sid; app_name := APP_NAME; user_id := user;
            events := [ {| author := lit "user";
                           content := Some new_message;
                           timestamp := 0%float |} ] |};
       user_content := Some new_message |}.

(** A context whose session ends with an answer of the agent and whose new
    input is the user saying ["again"]. *)
Definition again_context : InvocationContext :=
  {| session := hello_session;
     user_content :=
       Some {| role := Some (lit "user");
               parts := Some [Part_from_text (lit "again")] |} |}.

(** The context [hi_context] with another author, instant and session. *)
Definition hi_context_elsewhere : InvocationContext :=
  {| session :=
       {| id := lit "s2"; app_name := lit "other"; user_id := lit "alice";
          events :=
            [ {| author := lit "maestro";
                 content := Some {| role := Some (lit "user");
                                    parts := Some [Part_from_text (lit "hi")] |};
                 timestamp := 9%float |} ] |};
     user_content := None |}.

(* ===================================================================== *)
(** ** Further notions used by the properties below *)
(* ===================================================================== *)

(** The code point class (below 256) whose component is [x], if there is
    one: the components are searched in order. *)
Definition decode_char (x : float) : option nat :=
  find (fun k => PrimFloat.eqb (embed_char (Z.of_nat k)) x) (seq 0 256).

(** The session after more events were appended to it. *)
Definition with_more_events (s : Session) (more : list Event) : Session :=
  {| id := id s; app_name := app_name s; user_id := user_id s;
     events := events s ++ more |}.

(** The batch the loop of [add_session_to_memory] builds for a session. *)
Definition commit_batch (format_timestamp : float -> str) (s : Session) : Batch :=
  fold_left (add_event format_timestamp s) (enumerate (events s)) empty_batch.

(** The collection answers every query embedding with records it holds:
    as many as asked for, or all of them when it holds fewer. *)
Definition answers_from_records (K : Collection) : Prop :=
  forall q n c, exists picked : list (list Row),
    result_documents (query K q n c) = Some (map (map row_document) picked)
    /\ result_metadatas (query K q n c) = Some (map (map row_metadata) picked)
    /\ length picked = length q
    /\ Forall (fun p => incl p (records K c)
                       /\ length p = Nat.min n (length (records K c))) picked.


(** What the memory endpoint shows of a turn that was committed. *)
Definition item_of_turn (format_timestamp : float -> str) (e : Event) : MemoryItem :=
  {| item_author := Some (author e);
     item_text := joined_text (fragments e);
     item_timestamp := Some (format_timestamp (timestamp e)) |}.

(** Is the call a write? *)
Definition is_add (c : Call) : bool :=
  match c with CallAdd _ => true | CallQuery _ _ => false end.

(* ===================================================================== *)
(** ** Properties of the embedding *)
(* ===================================================================== *)

Section EmbedFacts.

Example embed_hi :
  firstn 3 (_embed_text (lit "hi")) =
  [(104 / 255)%float; (105 / 255)%float; 0%float].
Proof. vm_compute. reflexivity. Qed.

Lemma embed_char_table :
  forallb (fun k => in_unit_interval (embed_char (Z.of_nat k))) (seq 0 256) = true.
Proof. vm_compute. reflexivity. Qed.

Lemma embed_char_mod (c : codepoint) :
  embed_char c = embed_char (c mod 256)%Z.
Proof.
  unfold embed_char. rewrite Z.mod_mod by lia. reflexivity.
Qed.

Lemma embed_char_unit (c : codepoint) :
  in_unit_interval (embed_char c) = true.
Proof.
  rewrite embed_char_mod.
  assert (Hr : (0 <= c mod 256 < 256)%Z) by (apply Z.mod_pos_bound; lia).
  pose proof embed_char_table as T.
  rewrite forallb_forall in T.
  specialize (T (Z.to_nat (c mod 256))).
  rewrite Z2Nat.id in T by lia.
  apply T. apply in_seq. lia.
Qed.

Lemma embed_length (s : str) : length (_embed_text s) = 32.
Proof.
  unfold _embed_text, _EMBED_DIM.
  set (vec := map embed_char (firstn 32 s)).
  assert (Hle : length vec <= 32).
  { unfold vec. rewrite length_map, length_firstn. lia. }
  destruct (Nat.ltb_spec (length vec) 32) as [Hlt | Hge].
  - rewrite length_app, repeat_length. lia.
  - lia.
Qed.

Lemma embed_shape (s : str) :
  _embed_text s =
  map embed_char (firstn 32 s) ++ repeat 0%float (32 - length s).
Proof.
  unfold _embed_text, _EMBED_DIM.
  rewrite length_map, length_firstn.
  destruct (Nat.ltb_spec (Nat.min 32 (length s)) 32) as [Hlt | Hge].
  - replace (32 - Nat.min 32 (length s)) with (32 - length s) by lia.
    reflexivity.
  - replace (32 - length s) with 0 by lia.
    simpl. rewrite app_nil_r. reflexivity.
Qed.

End EmbedFacts.

(** C2. For every string [s], [_embed_text s] has exactly 32 components: the
    first 32 characters each mapped to [(code point mod 256) / 255], then
    zeros when [s] is shorter than 32; every component lies in [0, 1];
    characters past the 32nd do not matter; the empty string gives 32 zeros. *)
Theorem embed_text_spec (s : str) :
  length (_embed_text s) = 32
  /\ _embed_text s =
     map (fun c => (PrimFloat.of_uint63 (Uint63.of_Z (c mod 256)) / 255)%float)
         (firstn 32 s)
     ++ repeat 0%float (32 - length s)
  /\ (forall i, i < 32 ->
        nth i (_embed_text s) 0%float =
        match nth_error s i with
        | Some c => (PrimFloat.of_uint63 (Uint63.of_Z (c mod 256)) / 255)%float
        | None => 0%float
        end)
  /\ Forall (fun x => PrimFloat.leb 0 x = true /\ PrimFloat.leb x 1 = true)
            (_embed_text s)
  /\ _embed_text s = _embed_text (firstn 32 s)
  /\ _embed_text [] = repeat 0%float 32.
Proof.
  split; [apply embed_length |].
  split; [apply embed_shape |].
  split.
  { intros i Hi. rewrite embed_shape.
    destruct (Nat.lt_ge_cases i (length s)) as [Hin | Hout].
    - rewrite app_nth1 by (rewrite length_map, length_firstn; lia).
      destruct (nth_error s i) as [c |] eqn:E.
      + rewrite (nth_indep _ 0%float (embed_char c))
          by (rewrite length_map, length_firstn; lia).
        rewrite map_nth. fold (embed_char c). f_equal.
        apply nth_error_nth.
        rewrite nth_error_firstn.
        destruct (Nat.ltb_spec i 32); [exact E | lia].
      + apply nth_error_None in E. lia.
    - destruct (nth_error s i) as [c |] eqn:E.
      + assert (i < length s) by (apply nth_error_Some; congruence). lia.
      + rewrite app_nth2 by (rewrite length_map, length_firstn; lia).
        destruct (nth_in_or_default
                    (i - length (map embed_char (firstn 32 s)))
                    (repeat 0%float (32 - length s)) 0%float) as [Hin | Hd].
        * apply repeat_spec in Hin. exact Hin.
        * exact Hd. }
  split.
  { rewrite embed_shape. apply Forall_app. split.
    - apply Forall_forall. intros x Hx.
      apply in_map_iff in Hx. destruct Hx as [c [<- _]].
      pose proof (embed_char_unit c) as U.
      unfold in_unit_interval in U. apply andb_true_iff in U. exact U.
    - apply Forall_forall. intros x Hx.
      apply repeat_spec in Hx. subst x. split; reflexivity. }
  split.
  { rewrite !embed_shape. rewrite firstn_firstn, length_firstn.
    replace (Nat.min 32 32) with 32 by reflexivity.
    f_equal. f_equal. lia. }
  reflexivity.
Qed.

(* ===================================================================== *)
(** ** Lemmas on texts and on the commit loop *)
(* ===================================================================== *)

Section TextFacts.

Lemma truthy_texts_filter (ps : list Part) :
  truthy_texts ps =
  filter nonempty
    (flat_map (fun p => match text p with Some t => [t] | None => [] end) ps).
Proof.
  induction ps as [| p ps IH]; simpl; [reflexivity |].
  destruct (text p) as [[| c t] |]; simpl; rewrite IH; reflexivity.
Qed.

Lemma nonempty_concat (frs : list str) :
  nonempty (concat frs) = nonempty (filter nonempty frs).
Proof.
  induction frs as [| f frs IH]; simpl; [reflexivity |].
  destruct f as [| c t]; simpl; [exact IH | reflexivity].
Qed.

Lemma join_nonempty (sep : str) (items : list str) :
  Forall (fun x => nonempty x = true) items ->
  nonempty (join sep items) = nonempty items.
Proof.
  intros H. destruct H as [| x l Hx Hl]; [reflexivity |].
  destruct x as [| c t]; [discriminate |].
  destruct l; reflexivity.
Qed.

Lemma filter_nonempty_all (frs : list str) :
  Forall (fun x => nonempty x = true) (filter nonempty frs).
Proof.
  apply Forall_forall. intros x Hx. apply filter_In in Hx. tauto.
Qed.

(** The joined text is empty exactly when the concatenation is. *)
Lemma joined_text_nonempty (frs : list str) :
  nonempty (joined_text frs) = nonempty (concatenated_text frs).
Proof.
  unfold joined_text, concatenated_text.
  rewrite join_nonempty by apply filter_nonempty_all.
  symmetry. apply nonempty_concat.
Qed.

Lemma nonempty_false {A : Type} (l : list A) : nonempty l = false -> l = [].
Proof. destruct l; [reflexivity | discriminate]. Qed.

End TextFacts.

Section CommitFacts.

Variable format_timestamp : float -> str.
Variable s : Session.

Let step := add_event format_timestamp s.
Let spec_row := record_spec format_timestamp s.

(** One turn of the loop: a qualifying turn appends the specified record,
    any other leaves the four lists as they are. *)
Lemma add_event_spec (acc : Batch) (idx : nat) (e : Event) :
  step acc (idx, e) =
  if nonempty (concatenated_text (fragments e))
  then snoc_row acc (spec_row idx e)
  else acc.
Proof.
  unfold step, spec_row, add_event, snoc_row, record_spec.
  rewrite <- joined_text_nonempty.
  unfold joined_text, fragments, content_fragments.
  destruct (content e) as [c |]; [| reflexivity].
  destruct (parts c) as [ps |]; [| reflexivity].
  rewrite <- truthy_texts_filter.
  rewrite join_nonempty
    by (rewrite truthy_texts_filter; apply filter_nonempty_all).
  destruct ps as [| p ps]; [reflexivity |].
  destruct (nonempty (truthy_texts (p :: ps))); reflexivity.
Qed.

Lemma snoc_rows_batch (acc : Batch) (rs : list Row) :
  fold_left snoc_row rs acc =
  {| ids := ids acc ++ map row_id rs;
     documents := documents acc ++ map row_document rs;
     metadatas := metadatas acc ++ map row_metadata rs;
     embeddings := embeddings acc ++ map row_embedding rs |}.
Proof.
  revert acc. induction rs as [| r rs IH]; intros acc; simpl.
  - rewrite !app_nil_r. destruct acc; reflexivity.
  - rewrite IH. simpl. rewrite <- !app_assoc. reflexivity.
Qed.

Lemma loop_spec (l : list (nat * Event)) (acc : Batch) :
  fold_left step l acc =
  fold_left snoc_row
    (map (fun ie => spec_row (fst ie) (snd ie))
         (filter (fun ie => nonempty (concatenated_text (fragments (snd ie)))) l))
    acc.
Proof.
  revert acc. induction l as [| [idx e] l IH]; intros acc.
  - reflexivity.
  - cbn [fold_left filter snd]. rewrite add_event_spec.
    destruct (nonempty (concatenated_text (fragments e))); apply IH.
Qed.

(** The batch the loop has built when it ends. *)
Lemma loop_batch :
  fold_left (add_event format_timestamp s) (enumerate (events s)) empty_batch =
  batch_of (persisted_spec format_timestamp s).
Proof.
  change (add_event format_timestamp s) with step.
  rewrite loop_spec, snoc_rows_batch. reflexivity.
Qed.

Lemma add_session_to_memory_unfold :
  add_session_to_memory format_timestamp s =
  match persisted_spec format_timestamp s with
  | [] => Return tt
  | _ :: _ =>
      collection_add (batch_of (persisted_spec format_timestamp s)) (Return tt)
  end.
Proof.
  unfold add_session_to_memory. rewrite loop_batch.
  destruct (persisted_spec format_timestamp s); reflexivity.
Qed.

End CommitFacts.

Lemma rows_batch_of (rs : list Row) : rows (batch_of rs) = rs.
Proof.
  unfold rows, batch_of. simpl.
  induction rs as [| [i d m e] rs IH]; simpl; [reflexivity |].
  rewrite IH. reflexivity.
Qed.

Lemma enumerate_from_nth {A : Type} (l : list A) (start idx : nat) (x : A) :
  In (idx, x) (enumerate_from start l) <->
  start <= idx /\ nth_error l (idx - start) = Some x.
Proof.
  revert start. induction l as [| y l IH]; intros start; simpl.
  - split; [tauto |]. intros [_ H]. destruct (idx - start); discriminate.
  - rewrite IH. split.
    + intros [H | [Hle H]].
      * inversion H; subst. rewrite Nat.sub_diag. split; [lia | reflexivity].
      * split; [lia |].
        replace (idx - start) with (S (idx - S start)) by lia. exact H.
    + intros [Hle H].
      destruct (Nat.eq_dec idx start) as [-> | Hne].
      * rewrite Nat.sub_diag in H. simpl in H. left. congruence.
      * right. split; [lia |].
        replace (idx - start) with (S (idx - S start)) in H by lia. exact H.
Qed.

Lemma qualifying_none (s : Session) :
  Forall (fun e => concatenated_text (fragments e) = []) (events s) ->
  qualifying s = [].
Proof.
  unfold qualifying, enumerate. generalize 0 as start.
  induction (events s) as [| e l IH]; intros start H; simpl.
  - reflexivity.
  - inversion H as [| ? ? He Hl]; subst.
    rewrite He. simpl. apply IH. exact Hl.
Qed.

Lemma qualifying_iff (s : Session) (idx : nat) (e : Event) :
  In (idx, e) (qualifying s) <->
  nth_error (events s) idx = Some e
  /\ nonempty (concatenated_text (fragments e)) = true.
Proof.
  unfold qualifying, enumerate. rewrite filter_In, enumerate_from_nth.
  rewrite Nat.sub_0_r. simpl. intuition lia.
Qed.

(** C6. Committing a session writes exactly the turns whose concatenated
    text is not empty: nothing is called when there is none, otherwise one
    [add] carries one record per such turn, in order, with id
    ["{session_id}-{index}"], the space-joined non-empty fragments as
    document, the embedding of that text, and the five metadata fields. *)
Theorem commit_writes_qualifying_turns
    (format_timestamp : float -> str) (s : Session) :
  add_session_to_memory format_timestamp s =
    match persisted_spec format_timestamp s with
    | [] => Return tt
    | _ :: _ =>
        collection_add (batch_of (persisted_spec format_timestamp s)) (Return tt)
    end
  /\ (forall (K : Collection) (c : state K),
        calls K (add_session_to_memory format_timestamp s) c =
        match persisted_spec format_timestamp s with
        | [] => []
        | _ :: _ => [CallAdd (batch_of (persisted_spec format_timestamp s))]
        end)
  /\ rows (batch_of (persisted_spec format_timestamp s)) =
     map (fun ie =>
            {| row_id := id s ++ lit "-" ++ str_of_nat (fst ie);
               row_document := joined_text (fragments (snd ie));
               row_metadata :=
                 [ ("app_name"%string, app_name s);
                   ("user_id"%string, user_id s);
                   ("session_id"%string, id s);
                   ("author"%string, author (snd ie));
                   ("timestamp"%string, format_timestamp (timestamp (snd ie))) ];
               row_embedding := _embed_text (joined_text (fragments (snd ie))) |})
         (qualifying s)
  /\ (forall idx e,
        In (idx, e) (qualifying s) <->
        nth_error (events s) idx = Some e
        /\ nonempty (concatenated_text (fragments e)) = true)
  /\ Forall (fun r =>
               dict_keys (row_metadata r) =
               [ "app_name"; "user_id"; "session_id"; "author"; "timestamp" ]%string)
            (persisted_spec format_timestamp s).
Proof.
  split; [apply add_session_to_memory_unfold |].
  split.
  { intros K c. rewrite add_session_to_memory_unfold.
    destruct (persisted_spec format_timestamp s); reflexivity. }
  split; [apply rows_batch_of |].
  split; [apply qualifying_iff |].
  apply Forall_forall. intros r Hr. unfold persisted_spec in Hr.
  apply in_map_iff in Hr. destruct Hr as [ie [<- _]]. reflexivity.
Qed.

(** C8. When no turn of the session has text, committing it calls the
    collection not at all and leaves its state as it was. *)
Theorem commit_without_text_is_noop
    (format_timestamp : float -> str) (s : Session)
    (Hnone : Forall (fun e => concatenated_text (fragments e) = []) (events s)) :
  add_session_to_memory format_timestamp s = Return tt
  /\ forall (K : Collection) (c : state K),
       calls K (add_session_to_memory format_timestamp s) c = []
       /\ final K (add_session_to_memory format_timestamp s) c = c
       /\ outcome K (add_session_to_memory format_timestamp s) c = Ok tt.
Proof.
  assert (E : add_session_to_memory format_timestamp s = Return tt).
  { rewrite add_session_to_memory_unfold. unfold persisted_spec.
    rewrite qualifying_none by exact Hnone. reflexivity. }
  split; [exact E |].
  intros K c. rewrite E. repeat split.
Qed.

Lemma commit_without_text_is_noop_witness :
  Forall (fun e => concatenated_text (fragments e) = []) (events silent_session)
  /\ add_session_to_memory (fun _ => lit "t") silent_session = Return tt.
Proof.
  assert (H : Forall (fun e => concatenated_text (fragments e) = [])
                     (events silent_session)).
  { repeat constructor. }
  split; [exact H |].
  exact (proj1 (@commit_without_text_is_noop (fun _ => lit "t") silent_session H)).
Defined.

(* ===================================================================== *)
(** ** Record ids: decimal indices and injectivity *)
(* ===================================================================== *)

Section IdFacts.

Lemma lit_injective (a b : string) : lit a = lit b -> a = b.
Proof.
  unfold lit. intros H.
  rewrite <- (string_of_list_ascii_of_string a),
          <- (string_of_list_ascii_of_string b).
  f_equal.
  revert H. generalize (list_ascii_of_string b) as lb.
  induction (list_ascii_of_string a) as [| x la IH]; intros [| y lb] H;
    simpl in H; try discriminate; [reflexivity |].
  inversion H as [[Hxy Hrest]].
  f_equal; [| apply IH; exact Hrest].
  apply N2Z.inj in Hxy.
  rewrite <- (ascii_N_embedding x), <- (ascii_N_embedding y), Hxy.
  reflexivity.
Qed.

Lemma str_of_nat_injective (i j : nat) : str_of_nat i = str_of_nat j -> i = j.
Proof.
  unfold str_of_nat. intros H. apply lit_injective in H.
  assert (U : Nat.to_uint i = Nat.to_uint j).
  { pose proof (NilEmpty.usu (Nat.to_uint i)) as Hi.
    pose proof (NilEmpty.usu (Nat.to_uint j)) as Hj.
    rewrite H in Hi. congruence. }
  rewrite <- (Unsigned.of_to i), <- (Unsigned.of_to j), U. reflexivity.
Qed.

Lemma digits_only (d : Decimal.uint) :
  Forall (fun c => (48 <= c <= 57)%Z) (lit (NilEmpty.string_of_uint d)).
Proof.
  induction d; simpl; constructor; try exact IHd; simpl; lia.
Qed.

Lemma str_of_nat_no_dash (n : nat) : ~ In 45%Z (str_of_nat n).
Proof.
  intros H. pose proof (digits_only (Nat.to_uint n)) as D.
  rewrite Forall_forall in D. specialize (D _ H). lia.
Qed.

(** A list is cut in one way only at the last occurrence of [x]. *)
Lemma split_at_last {A : Type} (x : A) (l1 l2 d1 d2 : list A) :
  ~ In x d1 -> ~ In x d2 ->
  l1 ++ x :: d1 = l2 ++ x :: d2 -> l1 = l2 /\ d1 = d2.
Proof.
  intros H1 H2. revert l2.
  induction l1 as [| a l1 IH]; intros [| b l2] E; simpl in E.
  - injection E as Hd. split; [reflexivity | exact Hd].
  - injection E as Hx Hd. exfalso. apply H1. rewrite Hd.
    apply in_or_app. right. left. reflexivity.
  - injection E as Hx Hd. exfalso. apply H2. rewrite <- Hd.
    apply in_or_app. right. left. reflexivity.
  - injection E as Hab Hrest.
    destruct (IH _ Hrest) as [Hl Hd]. split; congruence.
Qed.

(** ["{session_id}-{index}"] determines both the session id and the index. *)
Lemma memory_id_injective (sid sid' : str) (i j : nat) :
  sid ++ lit "-" ++ str_of_nat i = sid' ++ lit "-" ++ str_of_nat j ->
  sid = sid' /\ i = j.
Proof.
  intros E. change (lit "-") with [45%Z] in E. simpl in E.
  apply split_at_last in E; try apply str_of_nat_no_dash.
  destruct E as [-> E]. split; [reflexivity |].
  apply str_of_nat_injective. exact E.
Qed.

Lemma enumerate_from_fst {A : Type} (l : list A) (start : nat) :
  map fst (enumerate_from start l) = seq start (length l).
Proof.
  revert start. induction l as [| x l IH]; intros start; simpl.
  - reflexivity.
  - rewrite IH. reflexivity.
Qed.

Lemma filter_keeps_distinct_keys {X Y : Type} (keep : X -> bool) (key : X -> Y)
    (xs : list X) (Hkeys : NoDup (map key xs)) :
  NoDup (map key (filter keep xs)).
Proof.
  induction xs as [| x xs IH]; simpl in *; [constructor |].
  inversion Hkeys as [| ? ? Hnot Hrest]; subst.
  destruct (keep x); simpl; [constructor |]; try (apply IH; exact Hrest).
  intros Hin. apply Hnot.
  apply in_map_iff in Hin. destruct Hin as [y [Hy Hin]].
  apply in_map_iff. exists y. split; [exact Hy |].
  apply filter_In in Hin. tauto.
Qed.

Lemma NoDup_map_compose {A B C : Type} (f : A -> B) (g : B -> C) (l : list A) :
  (forall x y, g x = g y -> x = y) ->
  NoDup (map f l) -> NoDup (map (fun x => g (f x)) l).
Proof.
  intros Hg. induction l as [| a l IH]; simpl; intros H; [constructor |].
  inversion H as [| ? ? Hnot Hrest]; subst.
  constructor; [| apply IH; exact Hrest].
  intros Hin. apply in_map_iff in Hin. destruct Hin as [y [Hy Hin]].
  apply Hg in Hy. apply Hnot. rewrite <- Hy. apply in_map. exact Hin.
Qed.

(** The ids of one commit are pairwise distinct. *)
Lemma persisted_ids_NoDup (format_timestamp : float -> str) (s : Session) :
  NoDup (map row_id (persisted_spec format_timestamp s)).
Proof.
  unfold persisted_spec. rewrite map_map.
  assert (H : NoDup (map fst (qualifying s))).
  { unfold qualifying, enumerate. apply filter_keeps_distinct_keys.
    rewrite enumerate_from_fst. apply seq_NoDup. }
  apply (NoDup_map_compose fst (fun i => id s ++ lit "-" ++ str_of_nat i));
    [| exact H].
  intros i j E. apply memory_id_injective in E. tauto.
Qed.

End IdFacts.

(* ===================================================================== *)
(** ** Lemmas on a collection whose [add] keeps the first record *)
(* ===================================================================== *)

Section InsertFacts.

Lemma stored_iff (i : str) (rs : list Row) :
  stored i rs = true <-> In i (map row_id rs).
Proof.
  unfold stored. rewrite existsb_exists, in_map_iff.
  split; intros [r [H1 H2]]; exists r.
  - unfold str_eqb in H2.
    destruct (str_eq_dec (row_id r) i); [tauto | discriminate].
  - split; [exact H2 |]. unfold str_eqb.
    destruct (str_eq_dec (row_id r) i); [reflexivity | contradiction].
Qed.

Lemma stored_false_iff (i : str) (rs : list Row) :
  stored i rs = false <-> ~ In i (map row_id rs).
Proof.
  rewrite <- stored_iff. destruct (stored i rs); split; congruence.
Qed.

Lemma insert_rows_NoDup (new rs : list Row) :
  NoDup (map row_id rs) -> NoDup (map row_id (insert_rows new rs)).
Proof.
  revert rs. induction new as [| r new IH]; intros rs H; simpl; [exact H |].
  apply IH. destruct (stored (row_id r) rs) eqn:E; [exact H |].
  rewrite map_app. simpl.
  apply NoDup_app; [exact H | repeat constructor; intros [] |].
  intros x Hx [Hr | []]. subst x.
  apply stored_false_iff in E. contradiction.
Qed.

(** Stored records stay, at their place. *)
Lemma insert_rows_prefix (new rs : list Row) :
  exists added, insert_rows new rs = rs ++ added.
Proof.
  revert rs. induction new as [| r new IH]; intros rs; simpl.
  - exists []. rewrite app_nil_r. reflexivity.
  - destruct (stored (row_id r) rs).
    + apply IH.
    + destruct (IH (rs ++ [r])) as [added E].
      exists (r :: added). rewrite E, <- app_assoc. reflexivity.
Qed.

Lemma insert_rows_keeps (new rs : list Row) (r : Row) :
  In r rs -> In r (insert_rows new rs).
Proof.
  intros H. destruct (insert_rows_prefix new rs) as [added ->].
  apply in_or_app. left. exact H.
Qed.

(** Every id of the batch is stored afterwards. *)
Lemma insert_rows_stores (new rs : list Row) (r : Row) :
  In r new -> In (row_id r) (map row_id (insert_rows new rs)).
Proof.
  revert rs. induction new as [| r0 new IH]; intros rs H; simpl; [destruct H |].
  destruct H as [-> | H]; [| apply IH; exact H].
  destruct (stored (row_id r) rs) eqn:E.
  - apply stored_iff in E. apply in_map_iff in E.
    destruct E as [r' [Hid Hin]]. rewrite <- Hid.
    apply in_map. apply insert_rows_keeps. exact Hin.
  - apply in_map. apply insert_rows_keeps.
    apply in_or_app. right. left. reflexivity.
Qed.

(** Adding records whose ids are all stored changes nothing. *)
Lemma insert_rows_all_stored (new rs : list Row) :
  (forall r, In r new -> In (row_id r) (map row_id rs)) ->
  insert_rows new rs = rs.
Proof.
  revert rs. induction new as [| r new IH]; intros rs H; simpl; [reflexivity |].
  assert (E : stored (row_id r) rs = true).
  { apply stored_iff. apply H. left. reflexivity. }
  rewrite E. apply IH. intros r' Hr'. apply H. right. exact Hr'.
Qed.

(** Adding records with fresh, pairwise distinct ids appends them all. *)
Lemma insert_rows_fresh (new rs : list Row) :
  NoDup (map row_id new) ->
  (forall r, In r new -> ~ In (row_id r) (map row_id rs)) ->
  insert_rows new rs = rs ++ new.
Proof.
  revert rs. induction new as [| r new IH]; intros rs Hnd Hfresh; simpl.
  - rewrite app_nil_r. reflexivity.
  - inversion Hnd as [| ? ? Hnot Hrest]; subst.
    assert (E : stored (row_id r) rs = false).
    { apply stored_false_iff. apply Hfresh. left. reflexivity. }
    rewrite E. rewrite IH; [rewrite <- app_assoc; reflexivity | exact Hrest |].
    intros r' Hr'. rewrite map_app, in_app_iff. simpl.
    intros [Hin | [Heq | []]].
    + apply (Hfresh r'); [right; exact Hr' | exact Hin].
    + apply Hnot. rewrite Heq. apply in_map. exact Hr'.
Qed.

End InsertFacts.

(* ===================================================================== *)
(** ** Committing a session twice *)
(* ===================================================================== *)

Lemma commit_records (format_timestamp : float -> str) (K : Collection)
    (s : Session) (c : state K) :
  add_keeps_first K ->
  records K (final K (add_session_to_memory format_timestamp s) c) =
  insert_rows (persisted_spec format_timestamp s) (records K c).
Proof.
  intros Hadd. rewrite add_session_to_memory_unfold.
  destruct (persisted_spec format_timestamp s) as [| r rs] eqn:E.
  - reflexivity.
  - unfold final. simpl. rewrite Hadd, rows_batch_of. reflexivity.
Qed.

Lemma in_memory_keeps_first : add_keeps_first InMemory.
Proof. intros b c. reflexivity. Qed.

(** C1 (as the code has it). Committing issues [add], which never
    overwrites. With a collection whose [add] keeps the first record stored
    under an id, committing the same session a second time issues the same
    call and leaves the records as they were; ids stay unique, each
    ["{session_id}-{index}"] of a qualifying turn names exactly one record,
    records stored before are kept, and when none of the ids was stored
    before, the records of the session are appended as they are. An id
    determines the session id and the index it was built from. *)
Theorem recommit_keeps_one_record_per_id
    (format_timestamp : float -> str) (K : Collection) (s : Session) (c : state K)
    (Hadd : add_keeps_first K)
    (Hunique : NoDup (map row_id (records K c))) :
  let commit := add_session_to_memory format_timestamp s in
  let c1 := final K commit c in
  let c2 := final K commit c1 in
  records K c2 = records K c1
  /\ calls K commit c1 = calls K commit c
  /\ NoDup (map row_id (records K c2))
  /\ (forall r, In r (persisted_spec format_timestamp s) ->
        count_occ str_eq_dec (map row_id (records K c2)) (row_id r) = 1)
  /\ (forall r, In r (records K c) -> In r (records K c2))
  /\ ((forall r, In r (persisted_spec format_timestamp s) ->
         ~ In (row_id r) (map row_id (records K c))) ->
      records K c2 = records K c ++ persisted_spec format_timestamp s)
  /\ (forall (s' : Session) (i j : nat),
        id s ++ lit "-" ++ str_of_nat i = id s' ++ lit "-" ++ str_of_nat j ->
        id s = id s' /\ i = j).
Proof.
  intros commit c1 c2.
  assert (E1 : records K c1 =
               insert_rows (persisted_spec format_timestamp s) (records K c))
    by (apply commit_records; exact Hadd).
  assert (E2 : records K c2 = records K c1).
  { unfold c2, commit. rewrite commit_records by exact Hadd.
    apply insert_rows_all_stored. intros r Hr.
    rewrite E1. apply insert_rows_stores. exact Hr. }
  assert (N1 : NoDup (map row_id (records K c1)))
    by (rewrite E1; apply insert_rows_NoDup; exact Hunique).
  split; [exact E2 |].
  split.
  { unfold commit. rewrite add_session_to_memory_unfold.
    destruct (persisted_spec format_timestamp s); reflexivity. }
  split; [rewrite E2; exact N1 |].
  split.
  { intros r Hr. rewrite E2.
    apply (proj1 (NoDup_count_occ' str_eq_dec _) N1).
    rewrite E1. apply insert_rows_stores. exact Hr. }
  split.
  { intros r Hr. rewrite E2, E1. apply insert_rows_keeps. exact Hr. }
  split.
  - intros Hfresh. rewrite E2, E1.
    apply insert_rows_fresh; [apply persisted_ids_NoDup | exact Hfresh].
  - intros s' i j. apply memory_id_injective.
Qed.

Lemma recommit_keeps_one_record_per_id_witness :
  (add_keeps_first InMemory /\ NoDup (map row_id (records InMemory [])))
  /\ map row_id
       (final InMemory (add_session_to_memory stamp hello_session)
          (final InMemory (add_session_to_memory stamp hello_session) []))
     = [lit "s1-0"; lit "s1-1"].
Proof.
  assert (H0 : NoDup (map row_id (records InMemory []))) by constructor.
  split; [split; [exact in_memory_keeps_first | exact H0] |].
  pose proof (@recommit_keeps_one_record_per_id stamp InMemory hello_session []
                in_memory_keeps_first H0) as W.
  cbv zeta in W. destruct W as [_ [_ [_ [_ [_ [W _]]]]]].
  change (map row_id
            (records InMemory
               (final InMemory (add_session_to_memory stamp hello_session)
                  (final InMemory (add_session_to_memory stamp hello_session) [])))
          = [lit "s1-0"; lit "s1-1"]).
  rewrite W by (intros r _ []).
  vm_compute. reflexivity.
Defined.

(** C1 (as stated) fails: committing is no upsert. A record stored under
    ["s1-0"] is still there after the session [s1] is committed, where an
    upsert would have replaced it by the first turn of the session. *)
Lemma commit_is_not_upsert :
  map row_document
      (records InMemory
         (final InMemory (add_session_to_memory stamp hello_session) stale_store))
    = [lit "old"; lit "Echo: hello"]
  /\ map row_document
       (upsert_rows_spec (persisted_spec stamp hello_session) stale_store)
     = [lit "hello"; lit "Echo: hello"]
  /\ calls InMemory (add_session_to_memory stamp hello_session) stale_store
     = [CallAdd (batch_of (persisted_spec stamp hello_session))].
Proof.
  split; [vm_compute; reflexivity |].
  split; [vm_compute; reflexivity |].
  rewrite add_session_to_memory_unfold.
  reflexivity.
Qed.

(* ===================================================================== *)
(** ** Searching *)
(* ===================================================================== *)

Section SearchFacts.

Lemma insert_by_length (key : Row -> float) (r : Row) (l : list Row) :
  length (insert_by key r l) = S (length l).
Proof.
  induction l as [| r' l IH]; simpl; [reflexivity |].
  destruct (PrimFloat.ltb (key r) (key r')); simpl; [| rewrite IH]; reflexivity.
Qed.

Lemma sort_by_length (key : Row -> float) (rs : list Row) :
  length (sort_by key rs) = length rs.
Proof.
  unfold sort_by.
  assert (G : forall acc,
             length (fold_left (fun sorted r => insert_by key r sorted) rs acc)
             = length rs + length acc).
  { induction rs as [| r rs IH]; intros acc; simpl; [reflexivity |].
    rewrite IH, insert_by_length. lia. }
  rewrite G. simpl. lia.
Qed.

Lemma nearest_length (rs : list Row) (n : nat) (q : Embedding) :
  length (nearest rs n q) = Nat.min n (length rs).
Proof.
  unfold nearest. rewrite length_firstn, sort_by_length. reflexivity.
Qed.

Lemma in_memory_answers_in_bounds : answers_in_bounds InMemory.
Proof.
  split; intros q n c; simpl.
  - exists (map (fun e => map row_document (nearest c n e)) q).
    split; [reflexivity |]. split; [apply length_map |].
    apply Forall_forall. intros x Hx. apply in_map_iff in Hx.
    destruct Hx as [e [<- _]]. rewrite length_map, nearest_length. lia.
  - exists (map (fun e => map row_metadata (nearest c n e)) q).
    split; [reflexivity |]. split; [apply length_map |].
    apply Forall_forall. intros x Hx. apply in_map_iff in Hx.
    destruct Hx as [e [<- _]]. rewrite length_map, nearest_length. lia.
Qed.

(** A collection that answers in bounds answers one query embedding with
    one list of documents and one list of metadatas. *)
Lemma one_answer (K : Collection) (e : Embedding) (n : nat) (c : state K) :
  answers_in_bounds K ->
  exists documents0 metadatas0,
    result_documents (query K [e] n c) = Some [documents0]
    /\ result_metadatas (query K [e] n c) = Some [metadatas0]
    /\ length documents0 <= Nat.min n (length (records K c))
    /\ length metadatas0 <= Nat.min n (length (records K c)).
Proof.
  intros [Hd Hm].
  destruct (Hd [e] n c) as [ds [Ed [Ld Fd]]].
  destruct (Hm [e] n c) as [ms [Em [Lm Fm]]].
  destruct ds as [| d0 [| ? ?]]; try discriminate.
  destruct ms as [| m0 [| ? ?]]; try discriminate.
  exists d0, m0. inversion Fd; inversion Fm; subst. tauto.
Qed.

Lemma search_response_cases (r : QueryResult) :
  (exists m, search_response r = Return m)
  \/ (exists e, search_response r = Throw e).
Proof.
  unfold search_response.
  destruct (result_documents r) as [[| d0 ds] |]; eauto.
  destruct (result_metadatas r) as [[| m0 ms] |]; eauto.
Qed.

(** What the handler shows of an entry built by [search_memory]. *)
Lemma memory_item_of_entry (doc : str) (metadata : Metadata) :
  memory_item (memory_entry (doc, metadata)) =
  {| item_author := dict_get "author" metadata;
     item_text := doc;
     item_timestamp := dict_get "timestamp" metadata |}.
Proof. destruct doc; reflexivity. Qed.

Lemma run_search_memory (K : Collection) (c : state K) (a u q : str) :
  run K (search_memory a u q) c =
  (let '(r, c', log) :=
     run K (search_response (query K [_embed_text q] 5 c)) c in
   (r, c', CallQuery [_embed_text q] 5 :: log)).
Proof. reflexivity. Qed.

Lemma run_get_memory_found (K : Collection) (c : state K)
    (get_session : str -> str -> str -> option Session)
    (sid q : str) (s : Session) :
  get_session APP_NAME USER_ID sid = Some s ->
  run K (get_memory get_session sid q) c =
  (match outcome K (search_memory (app_name s) (user_id s) q) c with
   | Ok r => Ok (map memory_item (memories r))
   | Raise e => Raise e
   end, c, [CallQuery [_embed_text q] 5]).
Proof.
  intros Hs. unfold get_memory, outcome. rewrite Hs.
  unfold search_memory. cbn [bind run].
  destruct (search_response_cases (query K [_embed_text q] 5 c))
    as [[m E] | [e E]]; rewrite E; reflexivity.
Qed.

End SearchFacts.

(** C4. [search_memory] issues one query, for the embedding of the query
    text and 5 results, and turns the answer into entries pair by pair and
    in the order of the answer: the document as content, author and
    timestamp from the metadata. With a collection that answers in bounds,
    these are at most 5 entries. *)
Theorem search_memory_maps_ranked_answer
    (K : Collection) (c : state K) (app user q : str)
    (Hbounds : answers_in_bounds K) :
  search_memory app user q = collection_query [_embed_text q] 5 search_response
  /\ calls K (search_memory app user q) c = [CallQuery [_embed_text q] 5]
  /\ final K (search_memory app user q) c = c
  /\ exists documents0 metadatas0,
       result_documents (query K [_embed_text q] 5 c) = Some [documents0]
       /\ result_metadatas (query K [_embed_text q] 5 c) = Some [metadatas0]
       /\ outcome K (search_memory app user q) c =
          Ok {| memories :=
                  map (fun dm =>
                         {| entry_content :=
                              {| role := Some (lit "user");
                                 parts := Some [Part_from_text (fst dm)] |};
                            entry_author := dict_get "author" (snd dm);
                            entry_timestamp := dict_get "timestamp" (snd dm) |})
                      (combine documents0 metadatas0) |}
       /\ length (combine documents0 metadatas0) <= 5.
Proof.
  destruct (one_answer K (_embed_text q) 5 c Hbounds)
    as [d0 [m0 [Ed [Em [Ld Lm]]]]].
  assert (R : search_response (query K [_embed_text q] 5 c) =
              Return {| memories := map memory_entry (combine d0 m0) |}).
  { unfold search_response. rewrite Ed, Em. reflexivity. }
  split; [reflexivity |].
  split; [unfold calls; rewrite run_search_memory, R; reflexivity |].
  split; [unfold final; rewrite run_search_memory, R; reflexivity |].
  exists d0, m0. split; [exact Ed |]. split; [exact Em |]. split.
  - unfold outcome. rewrite run_search_memory, R. simpl. do 2 f_equal.
    apply map_ext. intros [doc metadata]. reflexivity.
  - rewrite length_combine. lia.
Qed.

Lemma search_memory_maps_ranked_answer_witness :
  answers_in_bounds InMemory
  /\ calls InMemory (search_memory (lit "maestro") (lit "user") (lit "hello"))
           three_rows
     = [CallQuery [_embed_text (lit "hello")] 5].
Proof.
  split; [exact in_memory_answers_in_bounds |].
  exact (proj1 (proj2 (search_memory_maps_ranked_answer InMemory three_rows
                         (lit "maestro") (lit "user") (lit "hello")
                         in_memory_answers_in_bounds))).
Defined.

Example search_three_rows :
  outcome InMemory (search_memory (lit "maestro") (lit "user") (lit "hello"))
          three_rows
  = Ok {| memories :=
            map memory_entry
              [ (lit "hello", [ ("author"%string, lit "user");
                                ("timestamp"%string, lit "t1") ]);
                (lit "hellp", [ ("author"%string, lit "maestro") ]);
                (lit "zzz", [ ("author"%string, lit "user");
                              ("timestamp"%string, lit "t0") ]) ] |}.
Proof. vm_compute. reflexivity. Qed.

(** C7. With a collection that holds no record and answers in bounds,
    [search_memory] returns an empty list of memories and raises nothing;
    and so does the memory endpoint for a session that exists. *)
Theorem search_empty_store_is_empty
    (K : Collection) (c : state K) (app user q : str)
    (get_session : str -> str -> str -> option Session)
    (session_id : str) (s : Session)
    (Hbounds : answers_in_bounds K)
    (Hempty : records K c = [])
    (Hsession : get_session APP_NAME USER_ID session_id = Some s) :
  outcome K (search_memory app user q) c = Ok {| memories := [] |}
  /\ outcome K (get_memory get_session session_id q) c = Ok [].
Proof.
  destruct (one_answer K (_embed_text q) 5 c Hbounds)
    as [d0 [m0 [Ed [Em [Ld Lm]]]]].
  rewrite Hempty in Ld. simpl in Ld.
  assert (d0 = []) as -> by (destruct d0; [reflexivity | simpl in Ld; lia]).
  assert (R : forall a u,
             outcome K (search_memory a u q) c = Ok {| memories := [] |}).
  { intros a u. unfold outcome. rewrite run_search_memory.
    unfold search_response. rewrite Ed, Em. reflexivity. }
  split; [apply R |].
  unfold outcome at 1. rewrite (run_get_memory_found K c _ _ _ s Hsession).
  rewrite R. reflexivity.
Qed.

Lemma search_empty_store_is_empty_witness :
  (answers_in_bounds InMemory
   /\ records InMemory [] = []
   /\ one_session APP_NAME USER_ID (lit "s1")
      = Some {| id := lit "s1"; app_name := APP_NAME; user_id := USER_ID;
                events := [] |})
  /\ outcome InMemory (get_memory one_session (lit "s1") (lit "hello")) [] = Ok [].
Proof.
  assert (Hs : one_session APP_NAME USER_ID (lit "s1")
               = Some {| id := lit "s1"; app_name := APP_NAME;
                         user_id := USER_ID; events := [] |})
    by reflexivity.
  split; [split; [exact in_memory_answers_in_bounds | split; [reflexivity | exact Hs]] |].
  exact (proj2 (search_empty_store_is_empty InMemory [] APP_NAME USER_ID
                  (lit "hello") one_session (lit "s1") _
                  in_memory_answers_in_bounds eq_refl Hs)).
Defined.

(** C9. The memory endpoint looks the session up first. When there is
    none it raises the 404 "Session not found" and calls the collection not
    at all. When there is one it issues the search for the caller's query
    text and returns, for each entry and in order, its author, text and
    timestamp. *)
Theorem get_memory_resolves_session
    (get_session : str -> str -> str -> option Session)
    (session_id q : str) (K : Collection) (c : state K) :
  match get_session APP_NAME USER_ID session_id with
  | None =>
      get_memory get_session session_id q
        = Throw (HTTPException 404 (lit "Session not found"))
      /\ outcome K (get_memory get_session session_id q) c
         = Raise (HTTPException 404 (lit "Session not found"))
      /\ calls K (get_memory get_session session_id q) c = []
      /\ final K (get_memory get_session session_id q) c = c
  | Some s =>
      calls K (get_memory get_session session_id q) c
        = calls K (search_memory (app_name s) (user_id s) q) c
      /\ calls K (get_memory get_session session_id q) c
         = [CallQuery [_embed_text q] 5]
      /\ outcome K (get_memory get_session session_id q) c
         = match outcome K (search_memory (app_name s) (user_id s) q) c with
           | Ok r =>
               Ok (map (fun m =>
                          {| item_author := entry_author m;
                             item_text :=
                               match parts (entry_content m) with
                               | Some (p :: _) =>
                                   match text p with
                                   | Some (ch :: t) => ch :: t
                                   | _ => []
                                   end
                               | _ => []
                               end;
                             item_timestamp := entry_timestamp m |})
                       (memories r))
           | Raise e => Raise e
           end
      /\ (forall doc metadata,
            memory_item (memory_entry (doc, metadata)) =
            {| item_author := dict_get "author" metadata;
               item_text := doc;
               item_timestamp := dict_get "timestamp" metadata |})
  end.
Proof.
  destruct (get_session APP_NAME USER_ID session_id) as [s |] eqn:Hs.
  - pose proof (run_get_memory_found K c get_session session_id q s Hs) as R.
    assert (Q : calls K (search_memory (app_name s) (user_id s) q) c
                = [CallQuery [_embed_text q] 5]).
    { unfold calls. rewrite run_search_memory.
      destruct (search_response_cases (query K [_embed_text q] 5 c))
        as [[m E] | [e E]]; rewrite E; reflexivity. }
    split; [rewrite Q; unfold calls; rewrite R; reflexivity |].
    split; [unfold calls; rewrite R; reflexivity |].
    split; [unfold outcome at 1; rewrite R; reflexivity |].
    apply memory_item_of_entry.
  - unfold get_memory. rewrite Hs. repeat split.
Qed.

(** C10. [search_memory] does not read [app_name] and [user_id]: two calls
    that differ in them only are the same computation. The memory endpoint
    reads of the session no more than whether there is one; so for the
    session [s1] of user ["user"] it returns what user ["alice"] committed
    from a session of another application. *)
Theorem search_memory_ignores_app_and_user
    (app1 user1 app2 user2 q : str)
    (get_session : str -> str -> str -> option Session) (session_id : str) :
  search_memory app1 user1 q = search_memory app2 user2 q
  /\ (forall (K : Collection) (c : state K),
        run K (search_memory app1 user1 q) c = run K (search_memory app2 user2 q) c)
  /\ get_memory get_session session_id q =
     match get_session APP_NAME USER_ID session_id with
     | None => Throw (HTTPException 404 (lit "Session not found"))
     | Some _ =>
         (r <- collection_query [_embed_text q] 5 search_response ;;
          Return (map memory_item (memories r)))%prog
     end
  /\ outcome InMemory (get_memory one_session (lit "s1") (lit "alice"))
             (final InMemory (add_session_to_memory stamp alice_session) [])
     = Ok [ {| item_author := Some (lit "alice");
               item_text := lit "alice's note";
               item_timestamp := Some (lit "t1") |} ].
Proof.
  split; [reflexivity |].
  split; [reflexivity |].
  split.
  - unfold get_memory.
    destruct (get_session APP_NAME USER_ID session_id); reflexivity.
  - vm_compute. reflexivity.
Qed.

(* ===================================================================== *)
(** ** The agent and the message endpoint *)
(* ===================================================================== *)

Section AgentFacts.

Lemma add_content_spec (messages : list Message) (r : str) (oc : option Content) :
  match oc with
  | None => messages
  | Some c =>
      match parts c with
      | None | Some [] => messages
      | Some ps =>
          let t := join (lit " ") (truthy_texts ps) in
          if nonempty t
          then messages ++ [{| msg_role := r; msg_content := t |}]
          else messages
      end
  end = messages ++ entry_messages r (content_fragments oc).
Proof.
  unfold entry_messages. rewrite <- joined_text_nonempty.
  unfold joined_text, content_fragments.
  destruct oc as [c |]; [| symmetry; apply app_nil_r].
  destruct (parts c) as [ps |]; [| symmetry; apply app_nil_r].
  rewrite <- truthy_texts_filter.
  destruct ps as [| p ps]; [symmetry; apply app_nil_r |].
  cbv zeta.
  destruct (nonempty (join (lit " ") (truthy_texts (p :: ps))));
    [reflexivity | symmetry; apply app_nil_r].
Qed.

Lemma add_message_spec (messages : list Message) (e : Event) :
  add_message messages e =
  messages ++ entry_messages (author e) (fragments e).
Proof. apply (add_content_spec messages (author e) (content e)). Qed.

Lemma add_user_content_spec (messages : list Message) (uc : option Content) :
  add_user_content messages uc =
  messages ++ entry_messages (lit "user") (content_fragments uc).
Proof. apply (add_content_spec messages (lit "user") uc). Qed.

Lemma messages_loop (es : list Event) (acc : list Message) :
  fold_left add_message es acc =
  acc ++ flat_map (fun e => entry_messages (author e) (fragments e)) es.
Proof.
  revert acc. induction es as [| e es IH]; intros acc; simpl.
  - symmetry. apply app_nil_r.
  - rewrite IH, add_message_spec, <- app_assoc. reflexivity.
Qed.

Lemma last_item_app {A : Type} (a b : list A) :
  last_item (a ++ b) =
  match last_item b with Some y => Some y | None => last_item a end.
Proof.
  unfold last_item. rewrite rev_app_distr.
  destruct (rev b); reflexivity.
Qed.

Lemma last_item_nonempty {A : Type} (l : list A) :
  nonempty l = false -> last_item l = None.
Proof. destruct l; [reflexivity | discriminate]. Qed.

(** The last message is the most recent entry that has text. *)
Lemma last_message (entries : list (str * list str)) :
  option_map msg_content
    (last_item (flat_map (fun rf => entry_messages (fst rf) (snd rf)) entries))
  = most_recent_text (map snd entries).
Proof.
  induction entries as [| [r frs] entries IH]; simpl; [reflexivity |].
  rewrite last_item_app, <- IH. simpl.
  destruct (last_item (flat_map _ entries)); [reflexivity |].
  unfold entry_messages.
  destruct (nonempty (concatenated_text frs)); reflexivity.
Qed.

(** The messages of a context, all at once. *)
Lemma context_messages (ctx : InvocationContext) :
  add_user_content (fold_left add_message (events (session ctx)) [])
                   (user_content ctx)
  = flat_map (fun rf => entry_messages (fst rf) (snd rf))
      (map (fun e => (author e, fragments e)) (events (session ctx))
       ++ [(lit "user", content_fragments (user_content ctx))]).
Proof.
  rewrite add_user_content_spec, messages_loop. simpl.
  rewrite flat_map_app. simpl. rewrite app_nil_r. f_equal.
  induction (events (session ctx)) as [| e es IH]; simpl; [reflexivity |].
  rewrite IH. reflexivity.
Qed.

Lemma content_text_spec (ctx : InvocationContext) :
  (let messages :=
     add_user_content (fold_left add_message (events (session ctx)) [])
                      (user_content ctx) in
   if nonempty messages then
     match last_item messages with
     | Some m => lit "Echo: " ++ msg_content m
     | None => []
     end
   else [])
  = respond_spec (combined_history ctx).
Proof.
  cbv zeta. unfold respond_spec, combined_history.
  pose proof (last_message
                (map (fun e => (author e, fragments e)) (events (session ctx))
                 ++ [(lit "user", content_fragments (user_content ctx))])) as L.
  rewrite <- context_messages in L.
  rewrite map_app, map_map in L. simpl in L.
  change (fun x : Event => fragments x) with fragments in L.
  rewrite <- L.
  destruct (add_user_content _ _) as [| m ms] eqn:E; [reflexivity |].
  simpl nonempty. cbv iota.
  destruct (last_item (m :: ms)); reflexivity.
Qed.

End AgentFacts.

Lemma run_async_impl_spec (name : str) (now : float) (ctx : InvocationContext) :
  _run_async_impl name now ctx =
  [ {| author := name;
       content :=
         Some {| role := None;
                 parts := Some [Part_from_text (respond_spec (combined_history ctx))] |};
       timestamp := now |} ].
Proof.
  unfold _run_async_impl. cbv zeta.
  rewrite <- content_text_spec. reflexivity.
Qed.

Lemma most_recent_text_silent (history : list (list str)) :
  Forall (fun frs => concatenated_text frs = []) history ->
  most_recent_text history = None.
Proof.
  induction 1 as [| frs later Hfrs Hlater IH]; simpl; [reflexivity |].
  rewrite IH, Hfrs. reflexivity.
Qed.

Lemma send_message_of_agent
    (run_async : str -> str -> Content -> list Event)
    (session_id message : str) (name : str) (now : float)
    (ctx : InvocationContext) :
  run_async USER_ID session_id
    {| role := Some (lit "user"); parts := Some [Part_from_text message] |}
  = _run_async_impl name now ctx ->
  send_message run_async session_id message =
  match respond_spec (combined_history ctx) with
  | [] => Raise (HTTPException 500 (lit "No response from agent"))
  | ch :: t => Ok (ch :: t)
  end.
Proof.
  intros Hrun. unfold send_message. cbv zeta.
  rewrite Hrun, run_async_impl_spec. simpl.
  destruct (respond_spec (combined_history ctx)); reflexivity.
Qed.

(** C3. The agent yields one event, whose text is ["Echo: "] followed by
    the space-joined non-empty fragments of the most recent entry of the
    history (the events of the session, then the new user input) that has
    text, and the empty string when no entry has any. For the history
    [user: "hi"] it is ["Echo: hi"]. *)
Theorem agent_echoes_most_recent_text
    (name : str) (now : float) (ctx : InvocationContext) :
  _run_async_impl name now ctx =
    [ {| author := name;
         content :=
           Some {| role := None;
                   parts :=
                     Some [Part_from_text
                             match most_recent_text (combined_history ctx) with
                             | Some t => lit "Echo: " ++ t
                             | None => []
                             end] |};
         timestamp := now |} ]
  /\ (most_recent_text (combined_history ctx) = None <->
      Forall (fun frs => concatenated_text frs = []) (combined_history ctx))
  /\ map (fun e => content_fragments (content e))
         (_run_async_impl name now hi_context) = [[lit "Echo: hi"]]
  /\ map (fun e => content_fragments (content e))
         (_run_async_impl name now
            {| session := {| id := lit "s1"; app_name := APP_NAME;
                             user_id := USER_ID; events := [] |};
               user_content :=
                 Some {| role := Some (lit "user");
                         parts := Some [Part_from_text (lit "hi")] |} |})
     = [[lit "Echo: hi"]].
Proof.
  split; [apply run_async_impl_spec |].
  split.
  { split; [| apply most_recent_text_silent].
    induction (combined_history ctx) as [| frs later IH]; simpl; intros H.
    - constructor.
    - destruct (most_recent_text later); [discriminate |].
      destruct (nonempty (concatenated_text frs)) eqn:E; [discriminate |].
      constructor; [apply nonempty_false; exact E | apply IH; reflexivity]. }
  split; reflexivity.
Qed.

(** C5. When neither the history nor the new input carries text, the agent
    answers with the empty string, and [send_message] raises the 500
    "No response from agent" instead of returning a reply. *)
Theorem silent_conversation_is_server_error
    (run_async : str -> str -> Content -> list Event)
    (session_id message : str) (name : str) (now : float)
    (ctx : InvocationContext)
    (Hsilent : Forall (fun frs => concatenated_text frs = [])
                      (combined_history ctx))
    (Hrun : run_async USER_ID session_id
              {| role := Some (lit "user");
                 parts := Some [Part_from_text message] |}
            = _run_async_impl name now ctx) :
  _run_async_impl name now ctx =
    [ {| author := name;
         content := Some {| role := None; parts := Some [Part_from_text []] |};
         timestamp := now |} ]
  /\ send_message run_async session_id message =
     Raise (HTTPException 500 (lit "No response from agent")).
Proof.
  assert (E : respond_spec (combined_history ctx) = []).
  { unfold respond_spec. rewrite most_recent_text_silent by exact Hsilent.
    reflexivity. }
  split.
  - rewrite run_async_impl_spec, E. reflexivity.
  - rewrite (send_message_of_agent run_async session_id message name now ctx Hrun).
    rewrite E. reflexivity.
Qed.

Lemma silent_conversation_is_server_error_witness :
  send_message relay (lit "s1") [] =
  Raise (HTTPException 500 (lit "No response from agent")).
Proof.
  refine (proj2 (silent_conversation_is_server_error relay (lit "s1") []
                   APP_NAME 0%float
                   {| session :=
                        {| id := lit "s1"; app_name := APP_NAME; user_id := USER_ID;
                           events :=
                             [ {| author := lit "user";
                                  content :=
                                    Some {| role := Some (lit "user");
                                            parts := Some [Part_from_text []] |};
                                  timestamp := 0%float |} ] |};
                      user_content :=
                        Some {| role := Some (lit "user");
                                parts := Some [Part_from_text []] |} |}
                   _ _)).
  - repeat constructor.
  - reflexivity.
Defined.

Example send_hello :
  send_message relay (lit "s1") (lit "hello") = Ok (lit "Echo: hello").
Proof. reflexivity. Qed.

(* ===================================================================== *)
(** ** More on the embedding: what it can and cannot tell apart *)
(* ===================================================================== *)

Lemma embed_char_zero_class (m : Z) : embed_char (256 * m)%Z = 0%float.
Proof.
  rewrite embed_char_mod.
  replace ((256 * m) mod 256)%Z with 0%Z
    by (symmetry; rewrite Z.mul_comm; apply Z.mod_mul; lia).
  reflexivity.
Qed.

Lemma decode_char_table :
  forallb (fun k => match decode_char (embed_char (Z.of_nat k)) with
                    | Some k' => Nat.eqb k k'
                    | None => false
                    end) (seq 0 256) = true.
Proof. vm_compute. reflexivity. Qed.

Lemma decode_embed_char (c : codepoint) :
  decode_char (embed_char c) = Some (Z.to_nat (c mod 256)).
Proof.
  rewrite embed_char_mod.
  assert (Hr : (0 <= c mod 256 < 256)%Z) by (apply Z.mod_pos_bound; lia).
  pose proof decode_char_table as T.
  rewrite forallb_forall in T.
  specialize (T (Z.to_nat (c mod 256))).
  rewrite Z2Nat.id in T by lia.
  assert (Hin : In (Z.to_nat (c mod 256)) (seq 0 256)) by (apply in_seq; lia).
  specialize (T Hin).
  destruct (decode_char (embed_char (c mod 256)%Z)) as [k' |]; [| discriminate].
  apply Nat.eqb_eq in T. congruence.
Qed.

(** Two code points have the same component exactly when they agree
    modulo 256. *)
Lemma embed_char_eq_iff (a b : codepoint) :
  embed_char a = embed_char b <-> (a mod 256 = b mod 256)%Z.
Proof.
  split; intros H.
  - pose proof (decode_embed_char a) as Da.
    pose proof (decode_embed_char b) as Db.
    rewrite H in Da. rewrite Da in Db. injection Db as E.
    assert (Ha : (0 <= a mod 256 < 256)%Z) by (apply Z.mod_pos_bound; lia).
    assert (Hb : (0 <= b mod 256 < 256)%Z) by (apply Z.mod_pos_bound; lia).
    lia.
  - rewrite (embed_char_mod a), (embed_char_mod b), H. reflexivity.
Qed.

Lemma map_embed_char_mod (s : str) :
  map embed_char (map (fun c => (c mod 256)%Z) s) = map embed_char s.
Proof.
  rewrite map_map. apply map_ext. intros c. symmetry. apply embed_char_mod.
Qed.

(** The embedding reads a code point modulo 256 only: reducing every code
    point modulo 256, or moving every code point by a multiple of 256,
    gives the same vector. *)
Theorem embed_text_reads_code_points_mod_256 (s : str) (k : Z) :
  _embed_text (map (fun c => (c mod 256)%Z) s) = _embed_text s
  /\ _embed_text (map (fun c => (c + 256 * k)%Z) s) = _embed_text s.
Proof.
  assert (M : forall t : str,
             _embed_text (map (fun c => (c mod 256)%Z) t) = _embed_text t).
  { intros t. rewrite !embed_shape, length_map, firstn_map, map_embed_char_mod.
    reflexivity. }
  split; [apply M |].
  rewrite <- (M (map _ s)), <- (M s). f_equal.
  rewrite map_map. apply map_ext. intros c.
  rewrite Z.mul_comm. apply Z.mod_add. lia.
Qed.

Lemma firstn_of_repeat {A : Type} (x : A) (j k : nat) :
  firstn j (repeat x k) = repeat x (Nat.min j k).
Proof.
  revert k. induction j as [| j IH]; intros [| k]; simpl; try reflexivity.
  rewrite IH. reflexivity.
Qed.

Lemma repeat_app_same {A : Type} (x : A) (a b : nat) :
  repeat x a ++ repeat x b = repeat x (a + b).
Proof. symmetry. apply repeat_app. Qed.

(** Characters whose code point is a multiple of 256 (the NUL character
    among them) at the end of a text are not seen: they embed as the zeros
    the padding writes. *)
Theorem embed_text_ignores_trailing_nul (s : str) (m : Z) (k : nat) :
  _embed_text (s ++ repeat (256 * m)%Z k) = _embed_text s.
Proof.
  rewrite !embed_shape, firstn_app, map_app, length_app, repeat_length.
  rewrite <- app_assoc. f_equal.
  rewrite firstn_of_repeat, map_repeat, embed_char_zero_class, repeat_app_same.
  f_equal. lia.
Qed.

Lemma padded_components_inj (n : nat) (s t : str) :
  length s <= n -> length t <= n ->
  Forall (fun c => (c mod 256)%Z <> 0%Z) s ->
  Forall (fun c => (c mod 256)%Z <> 0%Z) t ->
  map embed_char s ++ repeat 0%float (n - length s) =
  map embed_char t ++ repeat 0%float (n - length t) ->
  map (fun c => (c mod 256)%Z) s = map (fun c => (c mod 256)%Z) t.
Proof.
  revert n t. induction s as [| a s IH]; intros n [| b t] Ls Lt Fs Ft E.
  - reflexivity.
  - exfalso. simpl in Lt. destruct n as [| n]; [lia |].
    simpl in E. injection E as E0 _.
    inversion Ft as [| ? ? Hb _]; subst. apply Hb.
    change 0%float with (embed_char 0%Z) in E0.
    apply embed_char_eq_iff in E0. rewrite <- E0. reflexivity.
  - exfalso. simpl in Ls. destruct n as [| n]; [lia |].
    simpl in E. injection E as E0 _.
    inversion Fs as [| ? ? Ha _]; subst. apply Ha.
    change 0%float with (embed_char 0%Z) in E0.
    apply embed_char_eq_iff in E0. rewrite E0. reflexivity.
  - simpl in Ls, Lt. destruct n as [| n]; [lia |].
    simpl in E. injection E as E0 E1.
    inversion Fs; inversion Ft; subst. simpl. f_equal.
    + apply embed_char_eq_iff. exact E0.
    + apply (IH n); try assumption; lia.
Qed.

(** On texts of at most 32 characters none of which has a code point
    multiple of 256, the embedding loses nothing but the code points'
    multiples of 256: equal vectors come from texts equal modulo 256. *)
Theorem embed_text_injective_on_short_texts (s t : str)
    (Hs : length s <= 32) (Ht : length t <= 32)
    (Zs : Forall (fun c => (c mod 256)%Z <> 0%Z) s)
    (Zt : Forall (fun c => (c mod 256)%Z <> 0%Z) t)
    (E : _embed_text s = _embed_text t) :
  map (fun c => (c mod 256)%Z) s = map (fun c => (c mod 256)%Z) t.
Proof.
  rewrite !embed_shape in E.
  rewrite !firstn_all2 in E by assumption.
  apply (padded_components_inj 32); assumption.
Qed.

Lemma embed_text_injective_on_short_texts_witness :
  map (fun c => (c mod 256)%Z) (lit "hi") =
  map (fun c => (c mod 256)%Z) [360%Z; 361%Z].
Proof.
  apply embed_text_injective_on_short_texts.
  - simpl. lia.
  - simpl. lia.
  - repeat constructor; discriminate.
  - repeat constructor; discriminate.
  - vm_compute. reflexivity.
Defined.

(* ===================================================================== *)
(** ** More on committing: the batch, its calls, sessions that grow *)
(* ===================================================================== *)

Lemma commit_batch_spec (format_timestamp : float -> str) (s : Session) :
  commit_batch format_timestamp s = batch_of (persisted_spec format_timestamp s).
Proof. apply loop_batch. Qed.

Lemma enumerate_from_length {A : Type} (l : list A) (start : nat) :
  length (enumerate_from start l) = length l.
Proof.
  revert start. induction l as [| x l IH]; intros start; simpl;
    [| rewrite IH]; reflexivity.
Qed.

Lemma qualifying_length (s : Session) :
  length (qualifying s) <= length (events s).
Proof.
  unfold qualifying, enumerate.
  rewrite <- (enumerate_from_length (events s) 0). apply filter_length_le.
Qed.

(** The batch that [add_session_to_memory] hands to [add] is well formed:
    its four lists have one length, at most the number of events; the ids
    are pairwise distinct; no document is empty; each embedding is that of
    its document and has 32 components. *)
Theorem commit_batch_well_formed (format_timestamp : float -> str) (s : Session) :
  let b := fold_left (add_event format_timestamp s) (enumerate (events s))
                     empty_batch in
  length (ids b) = length (documents b)
  /\ length (metadatas b) = length (documents b)
  /\ length (embeddings b) = length (documents b)
  /\ length (documents b) <= length (events s)
  /\ NoDup (ids b)
  /\ Forall (fun d => nonempty d = true) (documents b)
  /\ embeddings b = map _embed_text (documents b)
  /\ Forall (fun e => length e = 32) (embeddings b).
Proof.
  cbv zeta. fold (commit_batch format_timestamp s). rewrite commit_batch_spec.
  unfold batch_of. cbn [ids documents metadatas embeddings].
  rewrite !length_map.
  split; [reflexivity |]. split; [reflexivity |]. split; [reflexivity |].
  split; [unfold persisted_spec; rewrite length_map; apply qualifying_length |].
  split; [apply persisted_ids_NoDup |].
  split.
  { apply Forall_forall. intros d Hd.
    apply in_map_iff in Hd. destruct Hd as [r [<- Hr]].
    unfold persisted_spec in Hr. apply in_map_iff in Hr.
    destruct Hr as [[idx e] [<- Hq]]. simpl.
    rewrite joined_text_nonempty.
    unfold qualifying in Hq. apply filter_In in Hq. tauto. }
  split.
  { unfold persisted_spec. rewrite !map_map. reflexivity. }
  apply Forall_forall. intros e He.
  apply in_map_iff in He. destruct He as [r [<- Hr]].
  unfold persisted_spec in Hr. apply in_map_iff in Hr.
  destruct Hr as [ie [<- _]]. apply embed_length.
Qed.




Lemma enumerate_from_app {A : Type} (l m : list A) (start : nat) :
  enumerate_from start (l ++ m) =
  enumerate_from start l ++ enumerate_from (start + length l) m.
Proof.
  revert start. induction l as [| x l IH]; intros start; simpl.
  - rewrite Nat.add_0_r. reflexivity.
  - rewrite IH. replace (S start + length l) with (start + S (length l)) by lia.
    reflexivity.
Qed.

Lemma insert_rows_app (a b rs : list Row) :
  insert_rows (a ++ b) rs = insert_rows b (insert_rows a rs).
Proof.
  revert rs. induction a as [| r a IH]; intros rs; simpl; [reflexivity |].
  apply IH.
Qed.

Lemma insert_rows_again (a rs : list Row) :
  insert_rows a (insert_rows a rs) = insert_rows a rs.
Proof.
  apply insert_rows_all_stored. intros r Hr. apply insert_rows_stores. exact Hr.
Qed.

(** The records of a session that grew start with the records it had. *)
Lemma persisted_spec_grows (format_timestamp : float -> str) (s : Session)
    (more : list Event) :
  persisted_spec format_timestamp (with_more_events s more) =
  persisted_spec format_timestamp s ++
  map (fun ie => record_spec format_timestamp s (fst ie) (snd ie))
      (filter (fun ie => nonempty (concatenated_text (fragments (snd ie))))
              (enumerate_from (length (events s)) more)).
Proof.
  unfold persisted_spec, qualifying, enumerate. simpl.
  rewrite enumerate_from_app, filter_app, map_app. reflexivity.
Qed.

(** Events appended to a session leave the records of its earlier turns as
    they were: the batch of the longer session starts with the batch of the
    shorter one. And with a collection whose [add] keeps the first record,
    committing the session, letting it grow and committing it again stores
    what one commit of the grown session stores. *)
Theorem commit_of_grown_session
    (format_timestamp : float -> str) (K : Collection) (s : Session)
    (more : list Event) (c : state K)
    (Hadd : add_keeps_first K) :
  (exists later,
     rows (fold_left (add_event format_timestamp (with_more_events s more))
                     (enumerate (events (with_more_events s more))) empty_batch)
     = rows (fold_left (add_event format_timestamp s)
                       (enumerate (events s)) empty_batch) ++ later)
  /\ records K
       (final K (add_session_to_memory format_timestamp (with_more_events s more))
          (final K (add_session_to_memory format_timestamp s) c))
     = records K
         (final K (add_session_to_memory format_timestamp (with_more_events s more))
            c).
Proof.
  split.
  - fold (commit_batch format_timestamp (with_more_events s more)).
    fold (commit_batch format_timestamp s).
    rewrite !commit_batch_spec, !rows_batch_of, persisted_spec_grows.
    eexists. reflexivity.
  - rewrite !commit_records by exact Hadd.
    rewrite persisted_spec_grows, !insert_rows_app, insert_rows_again.
    reflexivity.
Qed.

Lemma commit_of_grown_session_witness :
  add_keeps_first InMemory
  /\ map row_id
       (records InMemory
          (final InMemory
             (add_session_to_memory stamp
                (with_more_events hello_session (events hello_session)))
             (final InMemory (add_session_to_memory stamp hello_session) [])))
     = [lit "s1-0"; lit "s1-1"; lit "s1-2"; lit "s1-3"].
Proof.
  split; [exact in_memory_keeps_first |].
  rewrite (proj2 (commit_of_grown_session stamp InMemory hello_session
                    (events hello_session) [] in_memory_keeps_first)).
  vm_compute. reflexivity.
Defined.

(** What a commit writes can be read back: for every record of the batch
    there is a turn of the session such that the record carries its five
    metadata values under the five keys and nothing under any other key the
    search reads, and the search path ([memory_entry], then [memory_item])
    shows the turn's author, joined text and formatted timestamp. *)
Theorem committed_rows_read_back (format_timestamp : float -> str) (s : Session) :
  Forall (fun r =>
            exists idx e,
              nth_error (events s) idx = Some e
              /\ row_id r = id s ++ lit "-" ++ str_of_nat idx
              /\ dict_get "app_name" (row_metadata r) = Some (app_name s)
              /\ dict_get "user_id" (row_metadata r) = Some (user_id s)
              /\ dict_get "session_id" (row_metadata r) = Some (id s)
              /\ dict_get "author" (row_metadata r) = Some (author e)
              /\ dict_get "timestamp" (row_metadata r)
                 = Some (format_timestamp (timestamp e))
              /\ memory_item (memory_entry (row_document r, row_metadata r))
                 = {| item_author := Some (author e);
                      item_text := joined_text (fragments e);
                      item_timestamp := Some (format_timestamp (timestamp e)) |})
         (rows (fold_left (add_event format_timestamp s)
                          (enumerate (events s)) empty_batch)).
Proof.
  fold (commit_batch format_timestamp s).
  rewrite commit_batch_spec, rows_batch_of.
  apply Forall_forall. intros r Hr.
  unfold persisted_spec in Hr. apply in_map_iff in Hr.
  destruct Hr as [[idx e] [<- Hq]]. apply qualifying_iff in Hq.
  exists idx, e. unfold record_spec.
  cbn [row_id row_document row_metadata fst snd].
  split; [tauto |].
  do 6 (split; [reflexivity |]).
  rewrite memory_item_of_entry. reflexivity.
Qed.

(* ===================================================================== *)
(** ** More on searching: reads only, and finds what was committed *)
(* ===================================================================== *)

Lemma search_memory_calls (K : Collection) (c : state K) (a u q : str) :
  calls K (search_memory a u q) c = [CallQuery [_embed_text q] 5]
  /\ final K (search_memory a u q) c = c.
Proof.
  unfold calls, final. rewrite run_search_memory.
  destruct (search_response_cases (query K [_embed_text q] 5 c))
    as [[m E] | [e E]]; rewrite E; split; reflexivity.
Qed.

(** The search path never writes: whatever the collection answers, also
    when the answer makes it raise, [search_memory] issues its one query and
    nothing else and leaves the collection in its state; and [get_memory],
    whatever the registry says, issues no [add] and leaves it so too. *)
Theorem search_path_only_reads
    (K : Collection) (c : state K) (app user q : str)
    (get_session : str -> str -> str -> option Session) (session_id : str) :
  calls K (search_memory app user q) c = [CallQuery [_embed_text q] 5]
  /\ final K (search_memory app user q) c = c
  /\ existsb is_add (calls K (get_memory get_session session_id q) c) = false
  /\ final K (get_memory get_session session_id q) c = c.
Proof.
  split; [apply search_memory_calls |].
  split; [apply search_memory_calls |].
  destruct (get_session APP_NAME USER_ID session_id) as [s |] eqn:Hs.
  - unfold calls, final.
    rewrite (run_get_memory_found K c get_session session_id q s Hs).
    split; reflexivity.
  - unfold get_memory. rewrite Hs. split; reflexivity.
Qed.

Lemma insert_by_In (key : Row -> float) (r x : Row) (l : list Row) :
  In x (insert_by key r l) -> x = r \/ In x l.
Proof.
  induction l as [| r' l IH]; simpl.
  - intros [H | []]. left. symmetry. exact H.
  - destruct (PrimFloat.ltb (key r) (key r')); simpl.
    + intros [H | H]; [left; symmetry; exact H | right; exact H].
    + intros [H | H]; [right; left; exact H |].
      destruct (IH H) as [E | Hin]; [left; exact E | right; right; exact Hin].
Qed.

Lemma sort_by_incl (key : Row -> float) (rs : list Row) :
  incl (sort_by key rs) rs.
Proof.
  unfold sort_by.
  assert (G : forall acc x,
             In x (fold_left (fun sorted r => insert_by key r sorted) rs acc) ->
             In x rs \/ In x acc).
  { induction rs as [| r rs IH]; intros acc x H; simpl in *; [right; exact H |].
    destruct (IH _ _ H) as [Hin | Hin]; [left; right; exact Hin |].
    destruct (insert_by_In _ _ _ _ Hin) as [E | Hacc];
      [left; left; symmetry; exact E | right; exact Hacc]. }
  intros x Hx. destruct (G [] x Hx) as [H | []]. exact H.
Qed.

Lemma in_memory_answers_from_records : answers_from_records InMemory.
Proof.
  intros q n c. exists (map (fun e => nearest c n e) q). simpl.
  rewrite !map_map. split; [reflexivity |]. split; [reflexivity |].
  split; [apply length_map |].
  apply Forall_forall. intros p Hp. apply in_map_iff in Hp.
  destruct Hp as [e [<- _]]. split; [| apply nearest_length].
  intros x Hx. unfold nearest in Hx. apply sort_by_incl with (key := fun r => distance e (row_embedding r)).
  rewrite <- (firstn_skipn n (sort_by _ c)). apply in_or_app. left. exact Hx.
Qed.

Lemma combine_of_maps {A B C : Type} (f : A -> B) (g : A -> C) (l : list A) :
  combine (map f l) (map g l) = map (fun x => (f x, g x)) l.
Proof.
  induction l as [| x l IH]; simpl; [| rewrite IH]; reflexivity.
Qed.

(** What was committed is what the endpoint finds. With a collection whose
    [add] keeps the first record and which answers from its records, after a
    session is committed to a collection that held nothing, the memory
    endpoint (for any session the registry knows and any query text)
    returns min(5, number of turns with text) memories, and each of them is
    a turn of the committed session with text: its author, its joined text
    and its formatted timestamp. *)
Theorem committed_turns_are_found
    (format_timestamp : float -> str) (K : Collection) (c : state K)
    (s : Session) (get_session : str -> str -> str -> option Session)
    (session_id q : str) (known : Session)
    (Hadd : add_keeps_first K)
    (Hanswers : answers_from_records K)
    (Hempty : records K c = [])
    (Hknown : get_session APP_NAME USER_ID session_id = Some known) :
  exists items,
    outcome K (get_memory get_session session_id q)
            (final K (add_session_to_memory format_timestamp s) c) = Ok items
    /\ length items = Nat.min 5 (length (qualifying s))
    /\ Forall (fun it =>
                 exists idx e,
                   nth_error (events s) idx = Some e
                   /\ nonempty (concatenated_text (fragments e)) = true
                   /\ it = item_of_turn format_timestamp e)
              items.
Proof.
  set (c1 := final K (add_session_to_memory format_timestamp s) c).
  assert (R : records K c1 = persisted_spec format_timestamp s).
  { unfold c1. rewrite commit_records by exact Hadd. rewrite Hempty.
    rewrite insert_rows_fresh; [reflexivity | apply persisted_ids_NoDup |].
    intros r _ []. }
  destruct (Hanswers [_embed_text q] 5 c1) as [picked [Ed [Em [Lp Fp]]]].
  destruct picked as [| p0 [| ? ?]]; try discriminate.
  apply Forall_inv in Fp. destruct Fp as [Hincl Hlen].
  exists (map (fun r => memory_item (memory_entry (row_document r, row_metadata r))) p0).
  split.
  { unfold outcome at 1.
    rewrite (run_get_memory_found K c1 get_session session_id q known Hknown).
    unfold outcome. rewrite run_search_memory. unfold search_response.
    rewrite Ed, Em. cbn [map]. rewrite combine_of_maps.
    cbn [run fst snd memories]. rewrite !map_map. reflexivity. }
  split.
  { rewrite length_map, Hlen, R. unfold persisted_spec. rewrite length_map.
    reflexivity. }
  apply Forall_forall. intros it Hit. apply in_map_iff in Hit.
  destruct Hit as [r [<- Hr]]. apply Hincl in Hr. rewrite R in Hr.
  unfold persisted_spec in Hr. apply in_map_iff in Hr.
  destruct Hr as [[idx e] [<- Hq]]. apply qualifying_iff in Hq.
  exists idx, e. split; [tauto |]. split; [tauto |].
  unfold record_spec. cbn [row_document row_metadata fst snd].
  rewrite memory_item_of_entry. reflexivity.
Qed.

Lemma committed_turns_are_found_witness :
  (add_keeps_first InMemory /\ answers_from_records InMemory)
  /\ exists items,
       outcome InMemory (get_memory one_session (lit "s1") (lit "hello"))
               (final InMemory (add_session_to_memory stamp hello_session) [])
       = Ok items
       /\ length items = 2.
Proof.
  split; [split; [exact in_memory_keeps_first | exact in_memory_answers_from_records] |].
  destruct (committed_turns_are_found stamp InMemory [] hello_session one_session
              (lit "s1") (lit "hello") _
              in_memory_keeps_first in_memory_answers_from_records
              eq_refl eq_refl) as [items [Ho [Hl _]]].
  exists items. split; [exact Ho | exact Hl].
Defined.

Example hello_is_found :
  outcome InMemory (get_memory one_session (lit "s1") (lit "hello"))
          (final InMemory (add_session_to_memory stamp hello_session) [])
  = Ok [ {| item_author := Some (lit "user"); item_text := lit "hello";
            item_timestamp := Some (lit "t1") |};
         {| item_author := Some (lit "maestro"); item_text := lit "Echo: hello";
            item_timestamp := Some (lit "t2") |} ].
Proof. vm_compute. reflexivity. Qed.

(* ===================================================================== *)
(** ** More on the agent and on the message endpoint *)
(* ===================================================================== *)

Lemma most_recent_text_app (a b : list (list str)) :
  most_recent_text (a ++ b) =
  match most_recent_text b with
  | Some t => Some t
  | None => most_recent_text a
  end.
Proof.
  induction a as [| frs a IH]; simpl.
  - destruct (most_recent_text b); reflexivity.
  - rewrite IH. destruct (most_recent_text b); reflexivity.
Qed.

Lemma most_recent_text_nonempty (history : list (list str)) (t : str) :
  most_recent_text history = Some t -> nonempty t = true.
Proof.
  induction history as [| frs later IH]; simpl; [discriminate |].
  destruct (most_recent_text later) as [t' |].
  - intros E. apply IH. exact E.
  - destruct (nonempty (concatenated_text frs)) eqn:N; [| discriminate].
    intros E. injection E as <-. rewrite joined_text_nonempty. exact N.
Qed.

(** When the new user input has text, the agent echoes it, whatever the
    session holds. *)
Theorem agent_echoes_user_input_first
    (name : str) (now : float) (ctx : InvocationContext)
    (Htext : nonempty (concatenated_text (content_fragments (user_content ctx)))
             = true) :
  _run_async_impl name now ctx =
  [ {| author := name;
       content :=
         Some {| role := None;
                 parts :=
                   Some [Part_from_text
                           (lit "Echo: "
                            ++ joined_text (content_fragments (user_content ctx)))] |};
       timestamp := now |} ].
Proof.
  rewrite run_async_impl_spec. unfold respond_spec, combined_history.
  rewrite most_recent_text_app. simpl. rewrite Htext. reflexivity.
Qed.

Lemma agent_echoes_user_input_first_witness :
  map (fun e => content_fragments (content e))
      (_run_async_impl APP_NAME 3%float again_context)
  = [[lit "Echo: again"]].
Proof.
  rewrite (agent_echoes_user_input_first APP_NAME 3%float again_context eq_refl).
  reflexivity.
Defined.

(** The agent yields one event, under its own name, with one part. Its
    text is empty exactly when no entry of the history has text; otherwise it
    is ["Echo: "] followed by at least one character, so never the bare
    prefix. *)
Theorem agent_response_shape
    (name : str) (now : float) (ctx : InvocationContext) :
  exists r,
    _run_async_impl name now ctx =
      [ {| author := name;
           content := Some {| role := None; parts := Some [Part_from_text r] |};
           timestamp := now |} ]
    /\ (r = [] <->
        Forall (fun frs => concatenated_text frs = []) (combined_history ctx))
    /\ (r = []
        \/ exists t, nonempty t = true /\ r = lit "Echo: " ++ t)
    /\ r <> lit "Echo: ".
Proof.
  exists (respond_spec (combined_history ctx)).
  split; [apply run_async_impl_spec |].
  unfold respond_spec.
  destruct (most_recent_text (combined_history ctx)) as [t |] eqn:E.
  - pose proof (most_recent_text_nonempty _ _ E) as N.
    destruct t as [| ch t]; [discriminate |].
    split.
    + split; [discriminate |]. intros H.
      rewrite (most_recent_text_silent _ H) in E. discriminate.
    + split; [right; exists (ch :: t); split; reflexivity |].
      discriminate.
  - split.
    + split; [| reflexivity]. intros _.
      induction (combined_history ctx) as [| frs later IH]; [constructor |].
      simpl in E. destruct (most_recent_text later); [discriminate |].
      destruct (nonempty (concatenated_text frs)) eqn:N; [discriminate |].
      constructor; [apply nonempty_false; exact N | apply IH; reflexivity].
    + split; [left; reflexivity |]. discriminate.
Qed.

(** The agent reads of the session nothing but the contents of its events:
    two contexts whose events carry the same contents in the same order, and
    the same user input, get the same answer, whoever authored the events and
    whenever, and whatever the session's identity. *)
Theorem agent_reads_contents_only
    (name : str) (now : float) (ctx ctx' : InvocationContext)
    (Hcontents : map content (events (session ctx))
                 = map content (events (session ctx')))
    (Hinput : user_content ctx = user_content ctx') :
  _run_async_impl name now ctx = _run_async_impl name now ctx'.
Proof.
  rewrite !run_async_impl_spec. unfold combined_history.
  rewrite <- Hinput.
  change fragments with (fun e => content_fragments (content e)).
  rewrite <- !(map_map content content_fragments), Hcontents. reflexivity.
Qed.

Lemma agent_reads_contents_only_witness :
  _run_async_impl APP_NAME 1%float hi_context =
  _run_async_impl APP_NAME 1%float hi_context_elsewhere.
Proof.
  exact (agent_reads_contents_only APP_NAME 1%float hi_context
           hi_context_elsewhere eq_refl eq_refl).
Defined.





(** With a runner that hands the new message to the agent as the user
    input and relays what the agent yields, a message that is not empty is
    answered by ["Echo: "] followed by the message, whatever the session
    holds. *)
Theorem send_message_echoes_message
    (run_async : str -> str -> Content -> list Event)
    (session_id message : str) (name : str) (now : float)
    (ctx : InvocationContext)
    (Hrun : run_async USER_ID session_id
              {| role := Some (lit "user");
                 parts := Some [Part_from_text message] |}
            = _run_async_impl name now ctx)
    (Hinput : user_content ctx
              = Some {| role := Some (lit "user");
                        parts := Some [Part_from_text message] |})
    (Hmessage : nonempty message = true) :
  send_message run_async session_id message = Ok (lit "Echo: " ++ message).
Proof.
  rewrite (send_message_of_agent run_async session_id message name now ctx Hrun).
  unfold respond_spec, combined_history.
  rewrite most_recent_text_app, Hinput. simpl.
  destruct message as [| ch t]; [discriminate |]. reflexivity.
Qed.

Lemma send_message_echoes_message_witness :
  send_message relay (lit "s1") (lit "hello") = Ok (lit "Echo: hello").
Proof.
  exact (send_message_echoes_message relay (lit "s1") (lit "hello")
           APP_NAME 0%float
           {| session :=
                {| id := lit "s1"; app_name := APP_NAME; user_id := USER_ID;
                   events :=
                     [ {| author := lit "user";
                          content :=
                            Some {| role := Some (lit "user");
                                    parts := Some [Part_from_text (lit "hello")] |};
                          timestamp := 0%float |} ] |};
              user_content :=
                Some {| role := Some (lit "user");
                        parts := Some [Part_from_text (lit "hello")] |} |}
           eq_refl eq_refl eq_refl).
Defined.
